(** * TON wallet tracker: the deduplication and change-detection engine

    A shallow embedding of [src/ton_track.py] (class [TONWalletTracker]):
    the classification of fetched transactions against the watermark
    [last_lt] and the seen-set [processed_hashes], the ordering of the new
    ones, the watermark update, the baseline of the polling method, the
    polling loop and the websocket retry loop with its fallback.

    Python objects are modelled as follows.
    - A value read from the JSON record is a [pyval]: [None], an [int] or
      a [str].  [int(...)] is [py_int] (it raises on [None] and on text
      that is not a decimal literal), truthiness is [truthy].
    - A transaction record is a [tx]: its ["transaction_id"] entry, which
      is an object with ["hash"] and ["lt"] entries, each possibly absent,
      or something that is no object, and the text [format_transaction]
      produces for it (absent when that call raises).
      The formatter itself is [Display.format_transaction], on the whole
      record [Display.raw_tx]; [Display.engine_view] gives the [tx] of a
      record.
    - The tracker object is a [tracker]; methods take it and return the
      updated one, together with what they printed and whether an
      exception left the loop body.  Exceptions do not undo mutations.
    - The network is scripted: every [requests.get] is answered by a
      [response], the websocket by a list of [ws_event]. *)

From Stdlib Require Import ZArith Ascii String Lia.
From stdpp Require Import gmap strings list sorting pretty.

Local Open Scope Z_scope.

(** ** Python values and [int()] *)

Inductive pyval : Type :=
| PNone
| PInt (z : Z)
| PStr (s : string).

#[global] Instance pyval_eq_dec : EqDecision pyval.
Proof. solve_decision. Defined.

(** [bool(v)]: [None], [0] and the empty string are falsy. *)
Definition truthy (v : pyval) : bool :=
  match v with
  | PNone => false
  | PInt z => negb (z =? 0)
  | PStr s => negb (String.eqb s EmptyString)
  end.

Module PyInt.

(** The characters [int()] strips from both ends of its argument:
    tab, line feed, vertical tab, form feed, carriage return, space. *)
Definition is_space (a : ascii) : bool :=
  let n := nat_of_ascii a in
  ((9 <=? n) && (n <=? 13) || (n =? 32))%nat.

Definition digit (a : ascii) : option Z :=
  let n := nat_of_ascii a in
  if ((48 <=? n) && (n <=? 57))%nat then Some (Z.of_nat (n - 48)) else None.

Fixpoint lstrip (l : list ascii) : list ascii :=
  match l with
  | a :: r => if is_space a then lstrip r else l
  | [] => []
  end.

Definition strip (l : list ascii) : list ascii :=
  rev (lstrip (rev (lstrip l))).

(** Decimal digits, where a single underscore may separate two digits.
    [after_digit] tells whether the previous character was a digit. *)
Fixpoint digits (acc : Z) (after_digit : bool) (l : list ascii) : option Z :=
  match l with
  | [] => if after_digit then Some acc else None
  | a :: r =>
      match digit a with
      | Some d => digits (10 * acc + d) true r
      | None =>
          if Ascii.eqb a "_" && after_digit then digits acc false r else None
      end
  end.

Definition signed (l : list ascii) : option Z :=
  match l with
  | a :: r =>
      if Ascii.eqb a "-" then Z.opp <$> digits 0 false r
      else if Ascii.eqb a "+" then digits 0 false r
      else digits 0 false l
  | [] => None
  end.

(** [int(s)] for a string of ASCII characters; [None] is [ValueError]. *)
Definition of_string (s : string) : option Z :=
  signed (strip (list_ascii_of_string s)).

End PyInt.

(** [int(v)]; [None] stands for the exception ([TypeError] on [None],
    [ValueError] on text that is no integer literal). *)
Definition py_int (v : pyval) : option Z :=
  match v with
  | PNone => None
  | PInt z => Some z
  | PStr s => PyInt.of_string s
  end.

(** ** Transaction records *)

(** What [tx.get("transaction_id", {})] gives. *)
Inductive transaction_id : Type :=
| IdObject (hash : option string) (lt : option pyval)
    (* an object, or the default when the key is absent: its "hash" entry
       ([None] when absent or null) and its "lt" entry ([None] when absent) *)
| IdOther.
    (* the entry is present and is no object (null, a string, a number, a
       list), or the record itself is no object: the [.get] raises
       AttributeError *)

#[global] Instance transaction_id_eq_dec : EqDecision transaction_id.
Proof. solve_decision. Defined.

Record tx : Type := mk_record {
  tx_id : transaction_id;    (* tx.get("transaction_id", {}) *)
  tx_text : option string    (* what the rest of format_transaction(tx) returns,
                                if it returns *)
}.

#[global] Instance tx_eq_dec : EqDecision tx.
Proof. solve_decision. Defined.

(** A record whose ["transaction_id"] is absent or an object. *)
Definition mk_tx (hash : option string) (lt : option pyval)
    (text : option string) : tx :=
  mk_record (IdObject hash lt) text.

(** Whether the [.get] calls on the ["transaction_id"] entry return. *)
Definition id_ok (t : tx) : bool :=
  match tx_id t with
  | IdObject _ _ => true
  | IdOther => false
  end.

(** [tx.get("transaction_id", {}).get("hash")], when it returns. *)
Definition tx_hash (t : tx) : option string :=
  match tx_id t with
  | IdObject hash _ => hash
  | IdOther => None
  end.

(** The ["lt"] entry, when it can be read; [None] when the key is absent. *)
Definition tx_lt (t : tx) : option pyval :=
  match tx_id t with
  | IdObject _ lt => lt
  | IdOther => None
  end.

(** [tx.get("transaction_id", {}).get("lt")], when it returns. *)
Definition get_lt (t : tx) : pyval := default PNone (tx_lt t).

(** [x.get("transaction_id", {}).get("lt", 0)], when it returns. *)
Definition get_lt_or_0 (t : tx) : pyval := default (PInt 0) (tx_lt t).

(** The truthy hash of a record, if it has one: [tx_hash] passes the test
    [if tx_hash] exactly when [live_hash] is [Some]. *)
Definition live_hash (t : tx) : option string :=
  match tx_hash t with
  | Some h => if String.eqb h EmptyString then None else Some h
  | None => None
  end.

(** [format_transaction]: it reads the ["transaction_id"] entry (lines
    49-50); the rest of the text depends on the fields that are not part
    of the engine (utime, in_msg, out_msgs, total_fees), and the call
    raises when one of them cannot be converted. *)
Definition format_transaction (t : tx) : option string :=
  if id_ok t then tx_text t else None.

(** ** The tracker *)

Record tracker : Type := mk_tracker {
  last_lt : pyval;                    (* self.last_lt, [PNone] until set *)
  processed_hashes : gset string      (* self.processed_hashes *)
}.

(** [__init__] *)
Definition new_tracker : tracker :=
  {| last_lt := PNone; processed_hashes := ∅ |}.

Definition set_last_lt (st : tracker) (v : pyval) : tracker :=
  {| last_lt := v; processed_hashes := processed_hashes st |}.

Definition add_hash (st : tracker) (h : string) : tracker :=
  {| last_lt := last_lt st; processed_hashes := {[h]} ∪ processed_hashes st |}.

(** [self.processed_hashes.add(tx_hash)] for the hash of a record. *)
Definition mark_processed (st : tracker) (t : tx) : tracker :=
  match tx_hash t with
  | Some h => add_hash st h
  | None => st
  end.

(** How a loop body ended. *)
Inductive status : Type := Completed | Raised.

#[global] Instance status_eq_dec : EqDecision status.
Proof. solve_decision. Defined.

(** ** Classification (lines 111-120 and 211-219) *)

(** [self.last_lt is None or int(tx_lt) > int(self.last_lt)];
    [None] when one of the conversions raises. *)
Definition above_watermark (st : tracker) (t : tx) : option bool :=
  match last_lt st with
  | PNone => Some true
  | w => x ← py_int (get_lt t); y ← py_int w; Some (y <? x)
  end.

(** Lines 113-118: the two reads of the ["transaction_id"] entry, then
    the whole condition of the [if], with Python's short-circuit order. *)
Definition is_new (st : tracker) (t : tx) : option bool :=
  if id_ok t then
    match live_hash t with
    | Some h =>
        if bool_decide (h ∈ processed_hashes st) then Some false
        else above_watermark st t
    | None => Some false
    end
  else None.

(** The [for tx in transactions] loop: the tracker after the loop, the
    list [new_transactions] and whether the loop ran to its end. *)
Fixpoint classify (st : tracker) (page : list tx) : tracker * list tx * status :=
  match page with
  | [] => (st, [], Completed)
  | t :: rest =>
      match is_new st t with
      | None => (st, [], Raised)
      | Some false => classify st rest
      | Some true =>
          let '(st', new, s) := classify (mark_processed st t) rest in
          (st', t :: new, s)
      end
  end.

(** ** Ordering (lines 124 and 222) *)

(** The sort key [int(x.get("transaction_id", {}).get("lt", 0))]. *)
Definition lt_key (t : tx) : option Z :=
  if id_ok t then py_int (get_lt_or_0 t) else None.

(** [list.sort] is stable: an element goes in front of the first element
    whose key is not smaller, and the list is built from its end. *)
Fixpoint insert_keyed (k : Z) (t : tx) (l : list (Z * tx)) : list (Z * tx) :=
  match l with
  | [] => [(k, t)]
  | (k', t') :: r =>
      if k <=? k' then (k, t) :: l else (k', t') :: insert_keyed k t r
  end.

Fixpoint sort_keyed (l : list (Z * tx)) : list (Z * tx) :=
  match l with
  | [] => []
  | (k, t) :: r => insert_keyed k t (sort_keyed r)
  end.

(** [new_transactions.sort(key=...)]: all keys are computed first; when
    one raises the sort raises. *)
Definition sort_new (new : list tx) : option (list tx) :=
  keys ← mapM lt_key new;
  Some ((sort_keyed (zip keys new)).*2).

(** ** Delivery and watermark update (lines 126-133 and 224-230) *)

(** Line 131, then
    [if tx_lt and (self.last_lt is None or int(tx_lt) > int(self.last_lt)):
       self.last_lt = tx_lt] *)
Definition advance (st : tracker) (t : tx) : option tracker :=
  if id_ok t then
    let v := get_lt t in
    if truthy v then
      b ← above_watermark st t;
      Some (if b : bool then set_last_lt st v else st)
    else Some st
  else None.

(** The [for tx in new_transactions] loop: each record is printed, then
    the watermark is updated.  Returns the records printed in full. *)
Fixpoint deliver (st : tracker) (txs : list tx) : tracker * list tx * status :=
  match txs with
  | [] => (st, [], Completed)
  | t :: rest =>
      match format_transaction t with
      | None => (st, [], Raised)
      | Some _ =>
          match advance st t with
          | None => (st, [t], Raised)
          | Some st' =>
              let '(st'', out, s) := deliver st' rest in (st'', t :: out, s)
          end
      end
  end.

(** The body shared by the polling loop and [check_single_update], from
    the fetched page on. *)
Definition reconcile (st : tracker) (page : list tx) : tracker * list tx * status :=
  match classify st page with
  | (st1, _, Raised) => (st1, [], Raised)
  | (st1, [], Completed) => (st1, [], Completed)
  | (st1, new, Completed) =>
      match sort_new new with
      | None => (st1, [], Raised)
      | Some sorted => deliver st1 sorted
      end
  end.

(** ** The History Source (lines 19-42) *)

(** What one [requests.get] leads to. *)
Inductive response : Type :=
| RequestError                    (* a requests.RequestException: no connection,
                                     HTTP error status, undecodable body *)
| OtherError                      (* an exception of another class *)
| Body (ok : bool) (result : option (list tx)).
                                  (* the decoded object: truth of data.get("ok")
                                     and the "result" entry, if present *)

(** [get_transactions_history]: the page, or [None] when an exception
    leaves the method.  A [RequestException] is caught inside. *)
Definition get_transactions_history (r : response) : option (list tx) :=
  match r with
  | RequestError => Some []
  | OtherError => None
  | Body true res => Some (default [] res)
  | Body false _ => Some []
  end.

(** ** What the program prints and awaits *)

Inductive action : Type :=
| Deliver (t : tx)          (* print(self.format_transaction(tx)) *)
| Sleep (seconds : nat)     (* await asyncio.sleep(seconds) *)
| Fallback.                 (* "Using reliable polling method..." *)

Definition delivered (log : list action) : list tx :=
  omap (λ a, match a with Deliver t => Some t | _ => None end) log.

(** ** [check_single_update] (lines 206-233) *)

(** The whole body is inside [try ... except Exception]. *)
Definition check_single_update (st : tracker) (r : response) : tracker * list tx :=
  match get_transactions_history r with
  | None => (st, [])
  | Some page => let '(st', out, _) := reconcile st page in (st', out)
  end.

(** ** [check_new_transactions] (lines 90-140) *)

(** Lines 98-101: the hashes of the page go into the seen-set, until a
    record whose ["transaction_id"] cannot be read. *)
Fixpoint seed_hashes (st : tracker) (txs : list tx) : tracker * status :=
  match txs with
  | [] => (st, Completed)
  | t :: rest =>
      if id_ok t then
        seed_hashes (match live_hash t with Some h => add_hash st h | None => st end)
                    rest
      else (st, Raised)
  end.

(** Lines 96-101: the baseline.  It is outside every [try]. *)
Definition set_baseline (st : tracker) (initial_txs : list tx) : tracker * status :=
  match initial_txs with
  | [] => (st, Completed)
  | t0 :: _ =>
      if id_ok t0 then seed_hashes (set_last_lt st (get_lt t0)) initial_txs
      else (st, Raised)
  end.

(** The tracker the baseline leaves. *)
Definition seed (st : tracker) (initial_txs : list tx) : tracker :=
  (set_baseline st initial_txs).1.

(** One turn of [while True]: the body in its [try], then the sleep. *)
Definition poll_cycle (st : tracker) (r : response) : tracker * list action :=
  match get_transactions_history r with
  | None => (st, [Sleep 10])
  | Some page =>
      match reconcile st page with
      | (st', out, Completed) => (st', (Deliver <$> out) ++ [Sleep 5])
      | (st', out, Raised) => (st', (Deliver <$> out) ++ [Sleep 10])
      end
  end.

(** The loop, for as many turns as there are scripted responses. *)
Fixpoint poll_loop (st : tracker) (rs : list response) : tracker * list action :=
  match rs with
  | [] => (st, [])
  | r :: rest =>
      let '(st1, log1) := poll_cycle st r in
      let '(st2, log2) := poll_loop st1 rest in
      (st2, log1 ++ log2)
  end.

(** Where the program is when the script ends. *)
Inductive mode : Type :=
| EventMode     (* inside websocket_monitor *)
| PollMode      (* inside the loop of check_new_transactions *)
| Stopped.      (* an exception reached main *)

#[global] Instance mode_eq_dec : EqDecision mode.
Proof. solve_decision. Defined.

(** The baseline fetch and the baseline are outside the [try]: an
    exception there leaves the method. *)
Definition check_new_transactions (st : tracker) (baseline : response)
    (rs : list response) : tracker * list action * mode :=
  match get_transactions_history baseline with
  | None => (st, [], Stopped)
  | Some initial_txs =>
      match set_baseline st initial_txs with
      | (st0, Raised) => (st0, [], Stopped)
      | (st0, Completed) =>
          let '(st', log) := poll_loop st0 rs in
          (st', log, PollMode)
      end
  end.

(** ** [websocket_monitor] (lines 142-204) *)

Inductive ws_event : Type :=
| WsFailure                 (* an Exception inside the attempt: connecting or
                               subscribing fails, or the stream breaks *)
| WsClosed                  (* the stream ends without an exception *)
| WsNoise                   (* a message that is not an account_update *)
| WsUpdate (r : response)   (* an account_update; [r] answers the fetch *)
| WsTimeout.                (* wait_for's timeout cancels the coroutine *)

Inductive ws_end : Type := MaxRetries | TimedOut | Listening.

Definition max_retries : nat := 3.

Fixpoint websocket_loop (st : tracker) (retry_count : nat) (evs : list ws_event)
    : tracker * list action * ws_end :=
  match evs with
  | [] => (st, [], Listening)
  | WsTimeout :: _ => (st, [], TimedOut)
  | WsFailure :: rest =>
      if (S retry_count <? max_retries)%nat then
        let '(st', log, e) := websocket_loop st (S retry_count) rest in
        (st', Sleep 5 :: log, e)
      else (st, [], MaxRetries)
  | WsClosed :: rest | WsNoise :: rest => websocket_loop st retry_count rest
  | WsUpdate r :: rest =>
      let '(st1, out) := check_single_update st r in
      let '(st2, log, e) := websocket_loop st1 retry_count rest in
      (st2, (Deliver <$> out) ++ log, e)
  end.

Definition websocket_monitor (st : tracker) (evs : list ws_event)
    : tracker * list action * ws_end :=
  websocket_loop st 0 evs.

(** ** [start_monitoring] (lines 235-252) *)

(** The scripted environment of one run. *)
Record world : Type := mk_world {
  w_init : response;            (* the fetch of the first check_single_update *)
  w_ws : list ws_event;         (* what the websocket does *)
  w_baseline : response;        (* the fetch of the baseline *)
  w_polls : list response       (* the fetches of the polling loop *)
}.

Definition start_monitoring (w : world) : tracker * list action * mode :=
  let '(st1, out1) := check_single_update new_tracker (w_init w) in
  match websocket_monitor st1 (w_ws w) with
  | (st2, log2, Listening) => (st2, (Deliver <$> out1) ++ log2, EventMode)
  | (st2, log2, _) =>
      let '(st3, log3, m) :=
        check_new_transactions st2 (w_baseline w) (w_polls w) in
      (st3, (Deliver <$> out1) ++ log2 ++ Fallback :: log3, m)
  end.


(** ** [format_transaction] (lines 44-88) *)

(** The formatter reads the whole record.  Two things it calls are not
    part of the program and stay parameters: the local time text of a
    timestamp, [datetime.fromtimestamp(utime).strftime(...)], which
    depends on the time zone of the machine and raises on a value that
    is no timestamp, and the text [format(n / 1e9, ".6f")] of an amount
    of [n] nanotons.  The float [n / 1e9] itself is represented by the
    integer [n]: the division raises [OverflowError] exactly when [n]
    does not fit a float, and the quotient is positive exactly when [n]
    is. *)
Module Display.

(** An entry of a JSON object as [d.get(key, default)] finds it. *)
Inductive entry (A : Type) : Type :=
| Absent                 (* the key is missing: [get] gives the default *)
| Is (a : A)             (* a value of the shape the code expects *)
| Other (truth : bool).  (* any other value (null, a number, ...), with its
                            truth value *)

Arguments Absent {A}.
Arguments Is {A} a.
Arguments Other {A} truth.

(** A message object: its "value", "source" and "destination" entries,
    [None] for an absent key. *)
Record msg : Type := mk_msg {
  m_value : option pyval;
  m_source : option pyval;
  m_destination : option pyval
}.

(** The entries of a "transaction_id" object: "hash" (absent, null or a
    string) and "lt". *)
Record id_fields : Type := mk_id {
  id_hash : option (option string);
  id_lt : option pyval
}.

(** A transaction record as the history source returns it. *)
Record raw_tx : Type := mk_raw {
  raw_utime : option pyval;                (* "utime" *)
  raw_transaction_id : entry id_fields;    (* "transaction_id": an object *)
  raw_in_msg : entry msg;                  (* "in_msg": an object *)
  raw_out_msgs : entry (list (option msg));
    (* "out_msgs": a list, or another value a [for] can run over, with its
       items, [None] for an item that is no object; [Other] is a value
       that cannot be iterated *)
  raw_total_fees : option pyval            (* "total_fees" *)
}.

(** [tx.get("transaction_id", {})]: the fields of the object, [None] when
    the entry is no object and the [.get] on it raises. *)
Definition id_of (r : raw_tx) : option id_fields :=
  match raw_transaction_id r with
  | Absent => Some (mk_id None None)
  | Is f => Some f
  | Other _ => None
  end.

(** The "hash" and "lt" entries, where they can be read. *)
Definition raw_hash (r : raw_tx) : option (option string) :=
  f ← id_of r; id_hash f.

Definition raw_lt (r : raw_tx) : option pyval := f ← id_of r; id_lt f.

(** [str(v)], as an f-string prints a value. *)
Definition py_str (v : pyval) : string :=
  match v with
  | PNone => "None"
  | PInt z => pretty z
  | PStr s => s
  end.

(** [d.get(key, "N/A")] printed by an f-string. *)
Definition text_or_na (o : option pyval) : string :=
  match o with
  | None => "N/A"
  | Some v => py_str v
  end.

(** From this absolute value on an integer does not convert to a float. *)
Definition float_limit : Z := (2 ^ 1024 - 2 ^ 970)%Z.

(** [int(v) / 1e9], as the number of nanotons; [None] when the conversion
    to [int] or to [float] raises. *)
Definition nanotons (v : pyval) : option Z :=
  n ← py_int v; if (Z.abs n <? float_limit)%Z then Some n else None.

(** [m.get("value")] *)
Definition value_of (m : msg) : pyval := default PNone (m_value m).

Definition nl : string := String (Ascii.ascii_of_nat 10) EmptyString.

(** ["\n".join(lines)] *)
Fixpoint join_lines (lines : list string) : string :=
  match lines with
  | [] => EmptyString
  | [l] => l
  | l :: rest => l +:+ nl +:+ join_lines rest
  end.

(** [tx.get("out_msgs", [])], as the items the [for] of line 65 runs over;
    [None] when it cannot be iterated. *)
Definition out_items (r : raw_tx) : option (list (option msg)) :=
  match raw_out_msgs r with
  | Absent => Some []
  | Is items => Some items
  | Other _ => None
  end.

Section Format.

Variable local_time : pyval → option string.
Variable ton6 : Z → string.

(** Lines 57-61: the pair [incoming_value], [incoming_source]. *)
Definition incoming (r : raw_tx) : option (Z * string) :=
  match raw_in_msg r with
  | Is m =>
      if truthy (value_of m) then
        n ← nanotons (value_of m); Some (n, text_or_na (m_source m))
      else Some (0%Z, "N/A"%string)
  | Other true => None
  | Absent | Other false => Some (0%Z, "N/A"%string)
  end.

(** Lines 64-69: the list [outgoing_info]. *)
Fixpoint outgoing (items : list (option msg)) : option (list string) :=
  match items with
  | [] => Some []
  | None :: _ => None
  | Some m :: rest =>
      if truthy (value_of m) then
        n ← nanotons (value_of m);
        lines ← outgoing rest;
        Some (("  → " +:+ text_or_na (m_destination m) +:+ ": " +:+ ton6 n
               +:+ " TON") :: lines)
      else outgoing rest
  end.

(** The hash as line 49 reads it for the text. *)
Definition hash_text (f : id_fields) : string :=
  match id_hash f with
  | None => "N/A"
  | Some None => "None"
  | Some (Some h) => h
  end.

(** [format_transaction]; [None] when an exception leaves it. *)
Definition format_transaction (r : raw_tx) : option string :=
  timestamp ← local_time (default (PInt 0) (raw_utime r));
  id ← id_of r;
  inc ← incoming r;
  items ← out_items r;
  outgoing_info ← outgoing items;
  total_fees ← nanotons (default (PInt 0) (raw_total_fees r));
  Some (nl +:+ "━━━━━━━━━━━━━━━━━━━━━━━━━━━━━━━━━━━━━━━━━━━━━━━━━━━━━━" +:+ nl
        +:+ "📅 Time: " +:+ timestamp +:+ nl
        +:+ "🔗 Hash: " +:+ hash_text id +:+ nl
        +:+ "📊 LT: " +:+ text_or_na (id_lt id) +:+ nl
        +:+ "💰 Fees: " +:+ ton6 total_fees +:+ " TON" +:+ nl
        +:+ (if (0 <? inc.1)%Z
             then "📥 INCOMING: " +:+ ton6 inc.1 +:+ " TON from " +:+ inc.2 +:+ nl
             else EmptyString)
        +:+ (match outgoing_info with
             | [] => EmptyString
             | _ => "📤 OUTGOING:" +:+ nl +:+ join_lines outgoing_info +:+ nl
             end)).

(** The incoming message can be shown: the entry is an object or falsy,
    and the amount of an object with a truthy value converts. *)
Definition in_msg_ok (r : raw_tx) : Prop :=
  raw_in_msg r ≠ Other true ∧
  ∀ m, raw_in_msg r = Is m → truthy (value_of m) = true →
       is_Some (nanotons (value_of m)).

(** The outgoing messages can be shown: every item is an object, and the
    amounts of those with a truthy value convert. *)
Definition amounts_ok (items : list (option msg)) : Prop :=
  Forall (λ i, ∃ m, i = Some m ∧
                    (truthy (value_of m) = true → is_Some (nanotons (value_of m))))
         items.

(** A record of the history source the whole cycle can handle: the
    logical time is an integer, the time stamp has a local time, the
    messages have the shape the formatter expects, and the amounts that
    are shown and the fees convert. *)
Definition raw_ok (r : raw_tx) : Prop :=
  is_Some (py_int (default PNone (raw_lt r))) ∧
  is_Some (local_time (default (PInt 0) (raw_utime r))) ∧
  in_msg_ok r ∧
  (∃ items, out_items r = Some items ∧ amounts_ok items) ∧
  is_Some (nanotons (default (PInt 0) (raw_total_fees r))).

(** The record as the engine sees it, with the text the formatter gives. *)
Definition engine_view (r : raw_tx) : tx :=
  {| tx_id := match id_of r with
              | Some f => IdObject (mjoin (id_hash f)) (id_lt f)
              | None => IdOther
              end;
     tx_text := format_transaction r |}.

End Format.

End Display.

(** * Vocabulary of the statements *)

(** The truthy hashes of a list of records, in order. *)
Definition hashes (l : list tx) : list string := omap live_hash l.

(** The logical time a record is ordered by (0 when its key does not
    convert; the sort raises in that case). *)
Definition lt_of (t : tx) : Z := default 0 (lt_key t).

(** The records with their sort keys. *)
Definition keyed (l : list tx) : list (Z * tx) := (λ t, (lt_of t, t)) <$> l.

(** The list [new_transactions] after [sort], when the sort returns. *)
Definition sorted_by_lt (l : list tx) : list tx := (sort_keyed (keyed l)).*2.

(** The orders the sort establishes, on keyed records and on records. *)
Definition key_le (p q : Z * tx) : Prop := p.1 ≤ q.1.

Definition lt_le (a b : tx) : Prop := lt_of a ≤ lt_of b.

(** The watermark is usable: unset, or something [int()] accepts. *)
Definition wm_ok (st : tracker) : Prop :=
  last_lt st = PNone ∨ is_Some (py_int (last_lt st)).

(** [b] is not below [a]: [a] is unset, or nothing changed, or both
    convert and [b] is larger. *)
Definition wm_le (a b : pyval) : Prop :=
  a = PNone ∨ a = b ∨ ∃ x y, py_int a = Some x ∧ py_int b = Some y ∧ x < y.

(** A step from [st] to [st'] that printed [out]: the seen-set only grew,
    the printed records have truthy, pairwise distinct hashes that were
    not seen before the step and are seen after it. *)
Definition fresh_step (st st' : tracker) (out : list tx) : Prop :=
  processed_hashes st ⊆ processed_hashes st' ∧
  NoDup (hashes out) ∧
  Forall (λ t, is_Some (live_hash t)) out ∧
  ∀ h, h ∈ hashes out → h ∉ processed_hashes st ∧ h ∈ processed_hashes st'.

(** A fetch that brings no page: the request fails, the answer cannot be
    used, or the service reports an error. *)
Definition fetch_failed (r : response) : bool :=
  match r with
  | RequestError | OtherError => true
  | Body ok _ => negb ok
  end.

Definition is_sleep (a : action) : bool :=
  match a with Sleep _ => true | _ => false end.

(** The number of sleeps in a log: the turns of a loop that came to
    their end. *)
Definition sleeps (log : list action) : nat := length (filter is_sleep log).

(** The part of a run that matters to the user. *)
Definition observable (r : tracker * list action) : tracker * list tx :=
  (r.1, delivered r.2).

(** A record the cycle can handle: its logical time converts and it can
    be formatted. *)
Definition tx_ok (t : tx) : Prop :=
  is_Some (py_int (get_lt t)) ∧ is_Some (format_transaction t).

(** The rule of the classification, stated on the fields: the hash is
    present and not empty, it is not in the seen-set, and the watermark is
    unset or below the logical time. *)
Definition new_at (st : tracker) (t : tx) : Prop :=
  ∃ h, tx_hash t = Some h ∧ h ≠ EmptyString ∧ h ∉ processed_hashes st ∧
       (last_lt st = PNone ∨
        ∃ x y, py_int (get_lt t) = Some x ∧ py_int (last_lt st) = Some y ∧ y < x).

(** A record the classification passes over without raising: a
    ["transaction_id"] that can be read and no usable hash, a hash already
    seen, or a logical time at or below the watermark. *)
Definition stale (st : tracker) (t : tx) : Prop :=
  (id_ok t = true ∧ live_hash t = None) ∨
  (∃ h, live_hash t = Some h ∧ h ∈ processed_hashes st) ∨
  (∃ x y, py_int (get_lt t) = Some x ∧ py_int (last_lt st) = Some y ∧ x ≤ y).

(** No two different records of the page carry the same hash. *)
Definition hash_identifies (page : list tx) : Prop :=
  ∀ t1 t2 h, t1 ∈ page → t2 ∈ page →
    live_hash t1 = Some h → live_hash t2 = Some h → t1 = t2.

(** The websocket events up to the first timeout. *)
Fixpoint before_timeout (evs : list ws_event) : list ws_event :=
  match evs with
  | [] => []
  | WsTimeout :: _ => []
  | e :: rest => e :: before_timeout rest
  end.

Definition is_failure (e : ws_event) : bool :=
  match e with WsFailure => true | _ => false end.

Definition is_timeout (e : ws_event) : bool :=
  match e with WsTimeout => true | _ => false end.

(** The number of failed attempts in a list of websocket events. *)
Definition failures (evs : list ws_event) : nat := length (filter is_failure evs).

(** An event that cannot change the tracker: anything but an update whose
    fetch brings a page. *)
Definition is_idle (e : ws_event) : bool :=
  match e with
  | WsUpdate r => fetch_failed r
  | _ => true
  end.

(** A stand-in for the local time of the machine, to run the formatter:
    every integer timestamp gets the same text, anything else is no
    timestamp. *)
Definition sample_local_time (v : pyval) : option string :=
  match v with
  | PInt _ => Some "1970-01-01 00:00:00"%string
  | _ => None
  end.

(** * Properties *)

(** ** Hashes and the condition of the [if] *)

Lemma live_hash_tx_hash t h : live_hash t = Some h → tx_hash t = Some h.
Proof.
  unfold live_hash. destruct (tx_hash t) as [h'|]; [|done].
  destruct (String.eqb h' EmptyString); naive_solver.
Qed.

Lemma live_hash_nonempty t h : live_hash t = Some h → h ≠ EmptyString.
Proof.
  unfold live_hash. destruct (tx_hash t) as [h'|]; [|done].
  destruct (String.eqb_spec h' EmptyString); naive_solver.
Qed.

Lemma tx_hash_id_ok t h : tx_hash t = Some h → id_ok t = true.
Proof. unfold tx_hash, id_ok. by destruct (tx_id t). Qed.

Lemma live_hash_id_ok t h : live_hash t = Some h → id_ok t = true.
Proof. intros H. eapply tx_hash_id_ok, live_hash_tx_hash, H. Qed.

Lemma get_lt_id_ok t x : py_int (get_lt t) = Some x → id_ok t = true.
Proof. unfold get_lt, tx_lt, id_ok. by destruct (tx_id t). Qed.

Lemma mark_processed_live st t h :
  live_hash t = Some h → mark_processed st t = add_hash st h.
Proof. intros H. unfold mark_processed. by rewrite (live_hash_tx_hash _ _ H). Qed.

(** The condition of the [if] spelled out. *)
Lemma is_new_true st t :
  is_new st t = Some true ↔
  ∃ h, live_hash t = Some h ∧ h ∉ processed_hashes st ∧
       above_watermark st t = Some true.
Proof.
  unfold is_new. destruct (id_ok t) eqn:Hid.
  - destruct (live_hash t) as [h|]; [|naive_solver].
    case_bool_decide; naive_solver.
  - split; [done|]. intros (h & Hh%live_hash_id_ok & _). congruence.
Qed.

Lemma above_watermark_value st t w x :
  py_int (last_lt st) = Some w → py_int (get_lt t) = Some x →
  above_watermark st t = Some (w <? x).
Proof.
  unfold above_watermark. intros Hw Hx.
  destruct (last_lt st) as [|z|v]; [done|..]; rewrite Hx; simpl.
  - by injection Hw as ->.
  - simpl in Hw. by rewrite Hw.
Qed.

(** With a watermark that is set, the test returns only when both
    conversions do. *)
Lemma above_watermark_Some st t b :
  last_lt st ≠ PNone → above_watermark st t = Some b →
  ∃ x y, py_int (get_lt t) = Some x ∧ py_int (last_lt st) = Some y ∧ b = (y <? x).
Proof.
  unfold above_watermark. intros Hset.
  destruct (last_lt st) as [|z|v]; [done|..];
    destruct (py_int (get_lt t)) as [x|]; simpl; try done.
  - intros [= <-]. by exists x, z.
  - destruct (PyInt.of_string v) as [y|]; simpl; [|done].
    intros [= <-]. by exists x, y.
Qed.

Lemma above_watermark_true st t :
  above_watermark st t = Some true ↔
  last_lt st = PNone ∨
  ∃ x y, py_int (get_lt t) = Some x ∧ py_int (last_lt st) = Some y ∧ y < x.
Proof.
  destruct (decide (last_lt st = PNone)) as [Hn|Hset].
  { unfold above_watermark. rewrite Hn. naive_solver. }
  split.
  - intros (x & y & Hx & Hy & Hb%eq_sym%Z.ltb_lt)%above_watermark_Some; [|done].
    right. by exists x, y.
  - intros [?|(x & y & Hx & Hy & Hlt%Z.ltb_lt)]; [done|].
    by rewrite (above_watermark_value _ _ _ _ Hy Hx), Hlt.
Qed.

(** ** The classification loop *)

Lemma classify_last_lt st page : last_lt (classify st page).1.1 = last_lt st.
Proof.
  revert st. induction page as [|t rest IH]; intros st; simpl; [done|].
  destruct (is_new st t) as [[]|]; simpl; [|by rewrite IH|done].
  specialize (IH (mark_processed st t)).
  destruct (classify (mark_processed st t) rest) as [[st' new] s]. simpl in *.
  rewrite IH. unfold mark_processed. by destruct (tx_hash t).
Qed.

(** The watermark test does not look at the seen-set. *)
Lemma above_watermark_ext st1 st2 t :
  last_lt st1 = last_lt st2 → above_watermark st1 t = above_watermark st2 t.
Proof. unfold above_watermark. by intros ->. Qed.

(** What the loop leaves behind: the seen-set gained exactly the hashes of
    the new records, which are pairwise distinct, were not seen before and
    passed the watermark test. *)
Lemma classify_spec st page st' new s :
  classify st page = (st', new, s) →
  processed_hashes st' = list_to_set (hashes new) ∪ processed_hashes st ∧
  NoDup (hashes new) ∧
  (∀ h, h ∈ hashes new → h ∉ processed_hashes st) ∧
  Forall (λ t, is_Some (live_hash t) ∧ above_watermark st t = Some true) new ∧
  new `sublist_of` page.
Proof.
  revert st st' new s. induction page as [|t rest IH]; intros st st' new s; simpl.
  { intros [= <- <- <-]. simpl. split_and!;
      [set_solver|constructor|set_solver|constructor|done]. }
  destruct (is_new st t) as [[]|] eqn:Hn.
  - apply is_new_true in Hn as (h & Hh & Hfresh & Hw).
    destruct (classify (mark_processed st t) rest) as [[st1 new1] s1] eqn:Hc.
    intros [= <- <- <-].
    apply IH in Hc as (Hp & Hnd & Hnot & Hall & Hsub).
    rewrite (mark_processed_live _ _ _ Hh) in Hp, Hnot, Hall. simpl in *.
    unfold hashes in *. simpl. rewrite Hh. simpl.
    split_and!.
    + rewrite Hp. set_solver.
    + constructor; [|done]. intros Hin. apply Hnot in Hin. set_solver.
    + intros h' [->|Hin]%elem_of_cons; [done|]. apply Hnot in Hin. set_solver.
    + constructor; [by rewrite Hh|].
      eapply Forall_impl; [exact Hall|]. intros t' [? Ht']. split; [done|].
      by rewrite <- Ht'.
    + by apply sublist_skip.
  - intros Hc. apply IH in Hc as (Hp & Hnd & Hnot & Hall & Hsub).
    split_and!; try done. by apply sublist_cons.
  - intros [= <- <- <-]. simpl. split_and!;
      [set_solver|constructor|set_solver|constructor|apply sublist_nil_l].
Qed.

(** The loop over a page cut in two. *)
Lemma classify_app st pre post :
  classify st (pre ++ post) =
    match classify st pre with
    | (st1, new1, Completed) =>
        let '(st2, new2, s) := classify st1 post in (st2, new1 ++ new2, s)
    | r => r
    end.
Proof.
  revert st. induction pre as [|t rest IH]; intros st; simpl.
  { by destruct (classify st post) as [[? ?] ?]. }
  destruct (is_new st t) as [[]|]; [|apply IH|done].
  rewrite IH. destruct (classify (mark_processed st t) rest) as [[st1 new1] []]; [|done].
  by destruct (classify st1 post) as [[? ?] ?].
Qed.

(** Every new record was new when the loop reached it. *)
Lemma classify_elem st page st' new s t :
  classify st page = (st', new, s) → t ∈ new →
  ∃ pre post, page = pre ++ t :: post ∧
              is_new (classify st pre).1.1 t = Some true.
Proof.
  revert st st' new s. induction page as [|u rest IH]; intros st st' new s; simpl.
  { intros [= <- <- <-] Hin. by apply elem_of_nil in Hin. }
  destruct (is_new st u) as [[]|] eqn:Hn.
  - destruct (classify (mark_processed st u) rest) as [[st1 new1] s1] eqn:Hc.
    intros [= <- <- <-] [->|Hin]%elem_of_cons.
    + by exists [], rest.
    + destruct (IH _ _ _ _ Hc Hin) as (pre & post & -> & Hnew).
      exists (u :: pre), post. split; [done|]. simpl. rewrite Hn.
      by destruct (classify (mark_processed st u) pre) as [[? ?] ?].
  - intros Hc Hin. destruct (IH _ _ _ _ Hc Hin) as (pre & post & -> & Hnew).
    exists (u :: pre), post. split; [done|]. simpl. by rewrite Hn.
  - intros [= <- <- <-] Hin. by apply elem_of_nil in Hin.
Qed.

(** Conversely, when the loop runs to its end. *)
Lemma classify_elem_complete st pre t post st' new :
  classify st (pre ++ t :: post) = (st', new, Completed) →
  is_new (classify st pre).1.1 t = Some true → t ∈ new.
Proof.
  rewrite classify_app.
  destruct (classify st pre) as [[st1 new1] []] eqn:Hpre; simpl.
  - intros Hc Hn. rewrite Hn in Hc.
    destruct (classify (mark_processed st1 t) post) as [[st2 new2] s2].
    simplify_eq. set_solver.
  - intros [= <- <- ?].
Qed.

(** ** The stable sort *)

Lemma insert_keyed_perm k t l : insert_keyed k t l ≡ₚ (k, t) :: l.
Proof.
  induction l as [|[k' t'] r IH]; simpl; [done|].
  destruct (k <=? k'); [done|]. rewrite IH. apply Permutation_swap.
Qed.

Lemma sort_keyed_perm l : sort_keyed l ≡ₚ l.
Proof.
  induction l as [|[k t] r IH]; simpl; [done|].
  by rewrite insert_keyed_perm, IH.
Qed.

Lemma insert_keyed_sorted k t l :
  StronglySorted key_le l → StronglySorted key_le (insert_keyed k t l).
Proof.
  induction 1 as [|[k' t'] r Hs IH Hall]; simpl.
  { repeat constructor. }
  destruct (Z.leb_spec k k') as [Hle|Hgt].
  - constructor; [by constructor|]. constructor; [done|].
    eapply Forall_impl; [exact Hall|]. unfold key_le. simpl. lia.
  - constructor; [done|]. rewrite insert_keyed_perm.
    constructor; [unfold key_le; simpl; lia|done].
Qed.

Lemma sort_keyed_sorted l : StronglySorted key_le (sort_keyed l).
Proof.
  induction l as [|[k t] r IH]; simpl; [constructor|].
  by apply insert_keyed_sorted.
Qed.

(** Stability: records with one and the same key keep their order. *)
Lemma insert_keyed_stable k t l (c : Z) :
  filter (λ p, p.1 = c) (insert_keyed k t l) = filter (λ p, p.1 = c) ((k, t) :: l).
Proof.
  induction l as [|[k' t'] r IH]; simpl; [done|].
  destruct (Z.leb_spec k k') as [Hle|Hgt]; [done|].
  rewrite filter_cons, IH, !filter_cons. simpl.
  repeat case_decide; try done; lia.
Qed.

Lemma sort_keyed_stable l (c : Z) :
  filter (λ p, p.1 = c) (sort_keyed l) = filter (λ p, p.1 = c) l.
Proof.
  induction l as [|[k t] r IH]; simpl; [done|].
  rewrite insert_keyed_stable, !filter_cons, IH. done.
Qed.

Lemma keyed_snd l : (keyed l).*2 = l.
Proof. unfold keyed. rewrite <- list_fmap_compose. apply list_fmap_id. Qed.

Lemma sorted_by_lt_perm l : sorted_by_lt l ≡ₚ l.
Proof. unfold sorted_by_lt. by rewrite sort_keyed_perm, keyed_snd. Qed.

Lemma key_is_lt_of l p : p ∈ sort_keyed (keyed l) → p.1 = lt_of p.2.
Proof.
  rewrite sort_keyed_perm. unfold keyed.
  intros (t & -> & _)%list_elem_of_fmap. done.
Qed.

Lemma sorted_by_lt_sorted l : StronglySorted lt_le (sorted_by_lt l).
Proof.
  unfold sorted_by_lt.
  pose proof (sort_keyed_sorted (keyed l)) as Hs.
  pose proof (key_is_lt_of l) as Hk.
  induction Hs as [|p r Hs IH Hall]; simpl; [constructor|].
  constructor.
  - apply IH. intros q Hq. apply Hk. by right.
  - apply Forall_fmap. apply Forall_forall. intros q Hq. simpl.
    rewrite Forall_forall in Hall. specialize (Hall q Hq).
    unfold lt_le, key_le in *.
    rewrite <- (Hk p), <- (Hk q); [done|by right|by left].
Qed.

Lemma sorted_by_lt_stable l (c : Z) :
  filter (λ t, lt_of t = c) (sorted_by_lt l) = filter (λ t, lt_of t = c) l.
Proof.
  unfold sorted_by_lt.
  transitivity ((filter (λ p : Z * tx, p.1 = c) (sort_keyed (keyed l))).*2).
  - pose proof (key_is_lt_of l) as Hk.
    induction (sort_keyed (keyed l)) as [|p r IH]; [done|].
    rewrite fmap_cons, !filter_cons.
    assert (p.1 = lt_of p.2) as Hp by (apply Hk; by left).
    rewrite IH by (intros q Hq; apply Hk; by right).
    repeat case_decide; try done; congruence.
  - rewrite sort_keyed_stable. unfold keyed.
    induction l as [|t r IH]; [done|].
    rewrite fmap_cons, !filter_cons. simpl.
    repeat case_decide; try done; rewrite ?fmap_cons; simpl; by f_equal.
Qed.

(** [sort_new] returns exactly when every key converts, and then it
    returns [sorted_by_lt]. *)
Lemma mapM_lt_key new keys :
  mapM lt_key new = Some keys → zip keys new = keyed new.
Proof.
  rewrite mapM_Some. induction 1 as [|t k l ks Hk _ IH]; simpl; [done|].
  unfold keyed in *. simpl. rewrite IH. unfold lt_of. by rewrite Hk.
Qed.

Lemma sort_new_Some new sorted :
  sort_new new = Some sorted ↔
  Forall (λ t, is_Some (lt_key t)) new ∧ sorted = sorted_by_lt new.
Proof.
  unfold sort_new. split.
  - destruct (mapM lt_key new) as [keys|] eqn:Hm; simpl; [|done].
    intros [= <-]. split.
    + apply mapM_Some in Hm. clear -Hm. induction Hm; constructor; eauto.
    + unfold sorted_by_lt. by rewrite (mapM_lt_key _ _ Hm).
  - intros [Hall ->].
    assert (is_Some (mapM lt_key new)) as [keys Hm].
    { apply mapM_is_Some. done. }
    rewrite Hm. simpl. unfold sorted_by_lt. by rewrite (mapM_lt_key _ _ Hm).
Qed.

(** ** The watermark *)

Lemma wm_le_refl a : wm_le a a.
Proof. right. by left. Qed.

Lemma wm_le_trans a b c : wm_le a b → wm_le b c → wm_le a c.
Proof.
  intros [->|[->|(x & y & Hx & Hy & Hxy)]] Hbc; [by left|done|].
  destruct Hbc as [->|[->|(y' & z & Hy' & Hz & Hyz)]].
  - done.
  - right. right. by exists x, y.
  - right. right. exists x, z. split_and!; [done..|]. simplify_eq. lia.
Qed.

Lemma truthy_get_lt t : truthy (get_lt t) = true → get_lt_or_0 t = get_lt t.
Proof. unfold get_lt, get_lt_or_0. by destruct (tx_lt t). Qed.

Lemma py_int_get_lt t x :
  py_int (get_lt t) = Some x → lt_key t = Some x ∧ lt_of t = x.
Proof.
  intros Hx. pose proof (get_lt_id_ok _ _ Hx) as Hid. revert Hx.
  unfold lt_of, lt_key, get_lt, get_lt_or_0. rewrite Hid.
  destruct (tx_lt t); simpl; [|done]. by intros ->.
Qed.

Lemma lt_key_id_ok t : is_Some (lt_key t) → id_ok t = true.
Proof. unfold lt_key. destruct (id_ok t); [done|]. by intros [? ?]. Qed.

Lemma advance_processed st t st' :
  advance st t = Some st' → processed_hashes st' = processed_hashes st.
Proof.
  unfold advance. destruct (id_ok t); [|done].
  destruct (truthy (get_lt t)); [|by intros [= <-]].
  destruct (above_watermark st t) as [[]|]; simpl; by intros [= <-].
Qed.

Lemma advance_wm_le st t st' :
  advance st t = Some st' → wm_le (last_lt st) (last_lt st').
Proof.
  unfold advance. destruct (id_ok t); [|done].
  destruct (truthy (get_lt t)); [|intros [= <-]; apply wm_le_refl].
  destruct (above_watermark st t) as [[]|] eqn:Hw; simpl; intros [= <-].
  - apply above_watermark_true in Hw as [Hw|(x & y & Hx & Hy & Hxy)]; [by left|].
    right. right. by exists y, x.
  - apply wm_le_refl.
Qed.

(** With a usable watermark and a key that converts the update does not
    raise, and a truthy logical time leaves the larger of the two. *)
Lemma advance_value st t :
  wm_ok st → is_Some (lt_key t) →
  ∃ st', advance st t = Some st' ∧ wm_ok st' ∧
    (truthy (get_lt t) = true →
     py_int (last_lt st') =
       Some (match py_int (last_lt st) with
             | Some w => Z.max w (lt_of t)
             | None => lt_of t
             end)).
Proof.
  intros Hok Hk. pose proof (lt_key_id_ok _ Hk) as Hid. destruct Hk as [x Hx].
  unfold advance. rewrite Hid.
  destruct (truthy (get_lt t)) eqn:Ht; [|by exists st].
  assert (py_int (get_lt t) = Some x ∧ lt_of t = x) as [Hx' Hlt].
  { unfold lt_of. rewrite Hx. unfold lt_key in Hx. rewrite Hid in Hx.
    by rewrite (truthy_get_lt _ Ht) in Hx. }
  destruct Hok as [Hn|[w Hw]].
  - unfold above_watermark. rewrite Hn. simpl. eexists. split; [done|]. simpl.
    rewrite Hx'. split; [right; eauto|]. intros _. by rewrite Hlt.
  - rewrite (above_watermark_value _ _ _ _ Hw Hx'). simpl.
    eexists. split; [done|]. rewrite Hw, Hlt.
    destruct (Z.ltb_spec w x); simpl.
    + rewrite Hx'. split; [right; eauto|]. intros _. f_equal. lia.
    + rewrite Hw. split; [right; eauto|]. intros _. f_equal. lia.
Qed.

(** ** The delivery loop *)

Lemma deliver_prefix st txs st' out s :
  deliver st txs = (st', out, s) → out `prefix_of` txs.
Proof.
  revert st st' out s. induction txs as [|t rest IH]; intros st st' out s; simpl.
  { by intros [= <- <- <-]. }
  destruct (format_transaction t); [|intros [= <- <- <-]; apply prefix_nil].
  destruct (advance st t) as [st1|].
  - destruct (deliver st1 rest) as [[st2 out2] s2] eqn:Hd. intros [= <- <- <-].
    apply prefix_cons. eauto.
  - intros [= <- <- <-]. apply prefix_cons, prefix_nil.
Qed.

Lemma deliver_processed st txs :
  processed_hashes (deliver st txs).1.1 = processed_hashes st.
Proof.
  revert st. induction txs as [|t rest IH]; intros st; simpl; [done|].
  destruct (format_transaction t); [|done].
  destruct (advance st t) as [st1|] eqn:Ha; [|done].
  specialize (IH st1). destruct (deliver st1 rest) as [[st2 out2] s2]. simpl in *.
  rewrite IH. by apply advance_processed in Ha.
Qed.

Lemma deliver_wm_le st txs : wm_le (last_lt st) (last_lt (deliver st txs).1.1).
Proof.
  revert st. induction txs as [|t rest IH]; intros st; simpl; [apply wm_le_refl|].
  destruct (format_transaction t); [|apply wm_le_refl].
  destruct (advance st t) as [st1|] eqn:Ha; [|apply wm_le_refl].
  specialize (IH st1). destruct (deliver st1 rest) as [[st2 out2] s2]. simpl in *.
  eapply wm_le_trans; [|exact IH]. by apply advance_wm_le in Ha.
Qed.

(** Nothing printed, nothing changed. *)
Lemma deliver_nil st txs st' s : deliver st txs = (st', [], s) → st' = st.
Proof.
  destruct txs as [|t rest]; simpl; [by intros [= <-]|].
  destruct (format_transaction t); [|by intros [= <-]].
  destruct (advance st t) as [st1|]; [|done].
  by destruct (deliver st1 rest) as [[? ?] ?].
Qed.

(** The watermark after the loop, when every printed record has a truthy
    logical time: the largest value among the old watermark and the
    printed logical times. *)
Lemma deliver_watermark txs st st' out s :
  wm_ok st → Forall (λ t, is_Some (lt_key t)) txs →
  deliver st txs = (st', out, s) →
  Forall (λ t, truthy (get_lt t) = true) out → out ≠ [] →
  ∃ m, py_int (last_lt st') = Some m ∧
       Forall (λ t, lt_of t ≤ m) out ∧
       (∀ w, py_int (last_lt st) = Some w → w ≤ m) ∧
       ((∃ t, t ∈ out ∧ lt_of t = m) ∨ py_int (last_lt st) = Some m).
Proof.
  revert st st' out s. induction txs as [|t rest IH]; intros st st' out s Hok Hall; simpl.
  { by intros [= <- <- <-]. }
  apply Forall_cons in Hall as [Hk Hall].
  destruct (format_transaction t); [|by intros [= <- <- <-]].
  destruct (advance_value st t Hok Hk) as (st1 & Ha & Hok1 & Hv). rewrite Ha.
  destruct (deliver st1 rest) as [[st2 out2] s2] eqn:Hd. intros [= <- <- <-].
  intros [Ht Htr]%Forall_cons _. specialize (Hv Ht).
  destruct (decide (out2 = [])) as [->|Hne].
  - apply deliver_nil in Hd as ->. eexists. split; [exact Hv|].
    destruct (py_int (last_lt st)) as [w|].
    + split_and!.
      * repeat constructor. lia.
      * intros ? [= <-]. lia.
      * destruct (Z.max_spec w (lt_of t)) as [[_ ->]|[_ ->]];
          [left; exists t; split; [by left|done]|by right].
    + split_and!; [repeat constructor; lia|done|].
      left. exists t. split; [by left|done].
  - destruct (IH _ _ _ _ Hok1 Hall Hd Htr Hne) as (m & Hm & Hle & Hprev & Hatt).
    exists m. specialize (Hprev _ Hv). split; [done|]. split_and!.
    + constructor; [|done]. destruct (py_int (last_lt st)); lia.
    + intros w Hw. rewrite Hw in Hprev. lia.
    + destruct Hatt as [(t' & Hin & Ht')|Hst1].
      * left. exists t'. split; [by right|done].
      * rewrite Hv in Hst1. injection Hst1 as Hst1.
        destruct (py_int (last_lt st)) as [w|].
        -- destruct (Z.max_spec w (lt_of t)) as [[_ Hmax]|[_ Hmax]].
           ++ left. exists t. split; [by left|lia].
           ++ right. f_equal. lia.
        -- left. exists t. split; [by left|done].
Qed.

(** The loop prints everything when the records can be formatted. *)
Lemma deliver_completes txs st :
  wm_ok st →
  Forall (λ t, is_Some (lt_key t) ∧ is_Some (format_transaction t)) txs →
  ∃ st', deliver st txs = (st', txs, Completed).
Proof.
  revert st. induction txs as [|t rest IH]; intros st Hok Hall; simpl; [by eexists|].
  apply Forall_cons in Hall as [[Hk [txt ->]] Hall].
  destruct (advance_value st t Hok Hk) as (st1 & -> & Hok1 & _).
  destruct (IH st1 Hok1 Hall) as [st' ->]. by eexists.
Qed.

(** ** One call of the shared body *)

(** The two ways [reconcile] ends: nothing is printed and the tracker is
    the one the classification left, or the classification and the sort
    went through and the delivery loop ran on the sorted new records. *)
Lemma reconcile_cases st page st' out s :
  reconcile st page = (st', out, s) →
  ∃ st1 new s1, classify st page = (st1, new, s1) ∧
    ((out = [] ∧ st' = st1) ∨
     (s1 = Completed ∧ new ≠ [] ∧ Forall (λ t, is_Some (lt_key t)) new ∧
      deliver st1 (sorted_by_lt new) = (st', out, s))).
Proof.
  unfold reconcile. destruct (classify st page) as [[st1 new] s1] eqn:Hc.
  intros H. exists st1, new, s1. split; [done|].
  destruct new as [|t new], s1; simpl in H;
    try (left; simplify_eq; by split).
  destruct (sort_new (t :: new)) as [sorted|] eqn:Hs;
    [|left; simplify_eq; by split].
  apply sort_new_Some in Hs as [Hall ->]. right. by split_and!.
Qed.

Lemma reconcile_processed st page :
  processed_hashes (reconcile st page).1.1 = processed_hashes (classify st page).1.1.
Proof.
  destruct (reconcile st page) as [[st' out] s] eqn:Hr.
  apply reconcile_cases in Hr as (st1 & new & s1 & Hc & [[_ ->]|(_ & _ & _ & Hd)]);
    rewrite Hc; simpl; [done|].
  pose proof (deliver_processed st1 (sorted_by_lt new)) as Hp. by rewrite Hd in Hp.
Qed.

Lemma reconcile_out_new st page st' out s st1 new s1 :
  reconcile st page = (st', out, s) → classify st page = (st1, new, s1) →
  ∃ k, out ++ k ≡ₚ new.
Proof.
  intros Hr Hc.
  apply reconcile_cases in Hr as (st1' & new' & s1' & Hc' & Hcase).
  rewrite Hc in Hc'. simplify_eq.
  destruct Hcase as [[-> _]|(_ & _ & _ & Hd)]; [by exists new'|].
  apply deliver_prefix in Hd as [k Hk]. exists k.
  by rewrite <- Hk, sorted_by_lt_perm.
Qed.

(** ** Freshness of what a step prints *)

Lemma fresh_step_nil st st' :
  processed_hashes st ⊆ processed_hashes st' → fresh_step st st' [].
Proof.
  intros H. split_and!; [done|constructor|constructor|].
  intros h Hin. by apply elem_of_nil in Hin.
Qed.

Lemma fresh_step_app st st1 st2 out1 out2 :
  fresh_step st st1 out1 → fresh_step st1 st2 out2 →
  fresh_step st st2 (out1 ++ out2).
Proof.
  intros (Hs1 & Hnd1 & Hl1 & Hf1) (Hs2 & Hnd2 & Hl2 & Hf2).
  unfold fresh_step, hashes in *. rewrite omap_app. split_and!.
  - set_solver.
  - apply NoDup_app. split_and!; [done| |done].
    intros h Hin1 Hin2. apply Hf1 in Hin1. apply Hf2 in Hin2. naive_solver.
  - by apply Forall_app.
  - intros h [Hin|Hin]%elem_of_app.
    + apply Hf1 in Hin. set_solver.
    + apply Hf2 in Hin. set_solver.
Qed.

Lemma reconcile_fresh_step st page st' out s :
  reconcile st page = (st', out, s) → fresh_step st st' out.
Proof.
  intros Hr. destruct (classify st page) as [[st1 new] s1] eqn:Hc.
  destruct (reconcile_out_new _ _ _ _ _ _ _ _ Hr Hc) as [k Hk].
  pose proof (reconcile_processed st page) as Hp. rewrite Hr, Hc in Hp. simpl in Hp.
  apply classify_spec in Hc as (Hp1 & Hnd & Hnot & Hall & _).
  assert (hashes out ++ hashes k ≡ₚ hashes new) as Hh.
  { unfold hashes. by rewrite <- omap_app, Hk. }
  assert (∀ h, h ∈ hashes out → h ∈ hashes new) as Hin.
  { intros h Hh'. rewrite <- Hh. set_solver. }
  rewrite <- Hh in Hnd. rewrite <- Hk in Hall.
  apply NoDup_app in Hnd as (Hnd & _ & _).
  apply Forall_app in Hall as [Hall _].
  unfold fresh_step. rewrite Hp, Hp1. split_and!.
  - set_solver.
  - done.
  - eapply Forall_impl; [exact Hall|]. naive_solver.
  - intros h Hh'. apply Hin in Hh'. split; [by apply Hnot|set_solver].
Qed.

(** Distinct truthy hashes are distinct hash fields. *)
Lemma live_hashes_fields l :
  Forall (λ t, is_Some (live_hash t)) l → tx_hash <$> l = Some <$> hashes l.
Proof.
  induction 1 as [|t l [h Hh] _ IH]; [done|].
  unfold hashes in *. csimpl. rewrite Hh. csimpl.
  by rewrite IH, (live_hash_tx_hash _ _ Hh).
Qed.

Lemma fresh_step_NoDup st st' out :
  fresh_step st st' out → NoDup (tx_hash <$> out).
Proof.
  intros (_ & Hnd & Hl & _). rewrite (live_hashes_fields _ Hl).
  by apply (NoDup_fmap_2 Some).
Qed.

(** ** The baseline *)

Lemma seed_hashes_spec st l st' s :
  seed_hashes st l = (st', s) →
  last_lt st' = last_lt st ∧
  processed_hashes st ⊆ processed_hashes st' ∧
  (s = Completed →
   processed_hashes st' = list_to_set (hashes l) ∪ processed_hashes st).
Proof.
  revert st. induction l as [|t l IH]; intros st; simpl.
  { intros [= <- <-]. split_and!; [done|done|]. intros _. set_solver. }
  destruct (id_ok t); [|intros [= <- <-]; by split_and!].
  intros (Hw & Hsub & Hc)%IH. unfold hashes. simpl.
  destruct (live_hash t) as [h|]; simpl in *; split_and!; try done.
  - set_solver.
  - intros Hs. rewrite (Hc Hs). set_solver.
Qed.

(** The baseline that runs to its end: the watermark is the logical time
    field of the first record, and every truthy hash of the page is in
    the seen-set. *)
Lemma set_baseline_completed st page st' :
  set_baseline st page = (st', Completed) →
  processed_hashes st' = list_to_set (hashes page) ∪ processed_hashes st ∧
  ∀ t0 l, page = t0 :: l → last_lt st' = get_lt t0.
Proof.
  unfold set_baseline. destruct page as [|t0 l].
  { intros [= <-]. split; [set_solver|done]. }
  destruct (id_ok t0); [|done].
  intros (Hw & _ & Hc)%seed_hashes_spec. split; [by apply Hc|].
  by intros ? ? [= <- <-].
Qed.

Lemma seed_hashes_ids st l st' :
  seed_hashes st l = (st', Completed) → Forall (λ t, id_ok t = true) l.
Proof.
  revert st. induction l as [|t l IH]; intros st; simpl; [by constructor|].
  destruct (id_ok t) eqn:Hid; [|done]. intros Hs. constructor; eauto.
Qed.

Lemma set_baseline_ids st page st' :
  set_baseline st page = (st', Completed) → Forall (λ t, id_ok t = true) page.
Proof.
  unfold set_baseline. destruct page as [|t0 l]; [by constructor|].
  destruct (id_ok t0); [|done]. apply seed_hashes_ids.
Qed.

Lemma seed_mono st page : processed_hashes st ⊆ processed_hashes (seed st page).
Proof.
  unfold seed, set_baseline. destruct page as [|t0 l]; [done|].
  destruct (id_ok t0); [|done].
  destruct (seed_hashes _ _) as [st' s] eqn:Hs.
  by apply seed_hashes_spec in Hs as (_ & Hsub & _).
Qed.

(** ** Runs *)

Lemma delivered_app l1 l2 : delivered (l1 ++ l2) = delivered l1 ++ delivered l2.
Proof. apply omap_app. Qed.

Lemma delivered_Deliver out : delivered (Deliver <$> out) = out.
Proof. unfold delivered. induction out as [|t l IH]; [done|]. csimpl. by rewrite IH. Qed.

Lemma check_single_update_fresh st r st' out :
  check_single_update st r = (st', out) → fresh_step st st' out.
Proof.
  unfold check_single_update. destruct (get_transactions_history r) as [page|].
  - destruct (reconcile st page) as [[st1 out1] s1] eqn:Hr. intros [= <- <-].
    by eapply reconcile_fresh_step.
  - intros [= <- <-]. by apply fresh_step_nil.
Qed.

Lemma poll_cycle_fresh st r st' log :
  poll_cycle st r = (st', log) → fresh_step st st' (delivered log).
Proof.
  unfold poll_cycle. destruct (get_transactions_history r) as [page|].
  - destruct (reconcile st page) as [[st1 out1] s1] eqn:Hr.
    apply reconcile_fresh_step in Hr.
    destruct s1; intros [= <- <-]; rewrite delivered_app, delivered_Deliver;
      simpl; by rewrite app_nil_r.
  - intros [= <- <-]. by apply fresh_step_nil.
Qed.

Lemma poll_loop_fresh st rs st' log :
  poll_loop st rs = (st', log) → fresh_step st st' (delivered log).
Proof.
  revert st st' log. induction rs as [|r rest IH]; intros st st' log; simpl.
  { intros [= <- <-]. by apply fresh_step_nil. }
  destruct (poll_cycle st r) as [st1 log1] eqn:Hc.
  destruct (poll_loop st1 rest) as [st2 log2] eqn:Hl. intros [= <- <-].
  rewrite delivered_app. eapply fresh_step_app; [by eapply poll_cycle_fresh|eauto].
Qed.

Lemma websocket_loop_fresh st n evs st' log e :
  websocket_loop st n evs = (st', log, e) → fresh_step st st' (delivered log).
Proof.
  revert st n st' log e. induction evs as [|ev rest IH]; intros st n st' log e; simpl.
  { intros [= <- <- <-]. by apply fresh_step_nil. }
  destruct ev as [| | |r|].
  - destruct (S n <? max_retries)%nat.
    + destruct (websocket_loop st (S n) rest) as [[st1 log1] e1] eqn:Hw.
      intros [= <- <- <-]. simpl. eauto.
    + intros [= <- <- <-]. by apply fresh_step_nil.
  - eauto.
  - eauto.
  - destruct (check_single_update st r) as [st1 out] eqn:Hu.
    destruct (websocket_loop st1 n rest) as [[st2 log2] e2] eqn:Hw.
    intros [= <- <- <-]. rewrite delivered_app, delivered_Deliver.
    eapply fresh_step_app; [by eapply check_single_update_fresh|eauto].
  - intros [= <- <- <-]. by apply fresh_step_nil.
Qed.

Lemma seed_fresh st page : fresh_step st (seed st page) [].
Proof. apply fresh_step_nil, seed_mono. Qed.

Lemma check_new_transactions_fresh st b rs st' log m :
  check_new_transactions st b rs = (st', log, m) → fresh_step st st' (delivered log).
Proof.
  unfold check_new_transactions. destruct (get_transactions_history b) as [page|].
  - pose proof (seed_fresh st page) as Hs. unfold seed in Hs.
    destruct (set_baseline st page) as [st0 []]; simpl in Hs.
    + destruct (poll_loop st0 rs) as [st1 log1] eqn:Hl. intros [= <- <- <-].
      apply poll_loop_fresh in Hl.
      apply (fresh_step_app _ _ _ [] _ Hs Hl).
    + by intros [= <- <- <-].
  - intros [= <- <- <-]. by apply fresh_step_nil.
Qed.

Lemma start_monitoring_fresh w st' log m :
  start_monitoring w = (st', log, m) → fresh_step new_tracker st' (delivered log).
Proof.
  unfold start_monitoring, websocket_monitor.
  destruct (check_single_update new_tracker (w_init w)) as [st1 out1] eqn:H1.
  apply check_single_update_fresh in H1.
  destruct (websocket_loop st1 0 (w_ws w)) as [[st2 log2] e] eqn:H2.
  apply websocket_loop_fresh in H2.
  pose proof (fresh_step_app _ _ _ _ _ H1 H2) as H12.
  destruct (check_new_transactions st2 (w_baseline w) (w_polls w))
    as [[st3 log3] m3] eqn:H3.
  apply check_new_transactions_fresh in H3.
  pose proof (fresh_step_app _ _ _ _ _ H12 H3) as H123.
  destruct e; intros [= <- <- <-];
    rewrite ?delivered_app, ?delivered_Deliver; simpl;
    rewrite ?delivered_app, ?delivered_Deliver, ?app_assoc; done.
Qed.

(** ** Deliveries over a run *)

(** C1.  Whatever the history source and the websocket do during a run of
    [start_monitoring], no hash is printed twice: the hash fields of the
    delivered records are pairwise distinct.  And every record a call of
    the shared body delivers was, when the classification loop reached it,
    a record whose hash was not in the seen-set and whose logical time was
    above the watermark, or the watermark was unset. *)
Theorem delivered_at_most_once (w : world) (st : tracker) (page : list tx) (t : tx) :
  NoDup (tx_hash <$> delivered (start_monitoring w).1.2) ∧
  (t ∈ (reconcile st page).1.2 →
   ∃ pre post h,
     page = pre ++ t :: post ∧ tx_hash t = Some h ∧
     h ∉ processed_hashes (classify st pre).1.1 ∧
     (last_lt (classify st pre).1.1 = PNone ∨
      ∃ x y, py_int (get_lt t) = Some x ∧
             py_int (last_lt (classify st pre).1.1) = Some y ∧ y < x)).
Proof.
  split.
  - destruct (start_monitoring w) as [[st' log] m] eqn:Hrun. simpl.
    eapply fresh_step_NoDup, start_monitoring_fresh, Hrun.
  - destruct (reconcile st page) as [[st' out] s] eqn:Hr. simpl. intros Hin.
    destruct (classify st page) as [[st1 new] s1] eqn:Hc.
    destruct (reconcile_out_new _ _ _ _ _ _ _ _ Hr Hc) as [k Hk].
    assert (t ∈ new) as Hnew by (rewrite <- Hk; set_solver).
    destruct (classify_elem _ _ _ _ _ _ Hc Hnew) as (pre & post & -> & Hn).
    apply is_new_true in Hn as (h & Hh & Hfresh & Hw).
    apply above_watermark_true in Hw.
    exists pre, post, h. split_and!; [done|by apply live_hash_tx_hash|done|done].
Qed.

Lemma delivered_at_most_once_witness :
  let a := mk_tx (Some "a"%string) (Some (PStr "101")) (Some "a"%string) in
  let st := {| last_lt := PStr "100"; processed_hashes := ∅ |} in
  ∃ pre post h,
    [a; a] = pre ++ a :: post ∧ tx_hash a = Some h ∧
    h ∉ processed_hashes (classify st pre).1.1 ∧
    (last_lt (classify st pre).1.1 = PNone ∨
     ∃ x y, py_int (get_lt a) = Some x ∧
            py_int (last_lt (classify st pre).1.1) = Some y ∧ y < x).
Proof.
  intros a st.
  apply (proj2 (delivered_at_most_once (mk_world RequestError [] RequestError [])
                                       st [a; a] a)).
  vm_compute. left.
Defined.

(** ** Records without a hash *)

Lemma live_hash_None t :
  live_hash t = None ↔ tx_hash t = None ∨ tx_hash t = Some EmptyString.
Proof.
  unfold live_hash. destruct (tx_hash t) as [h|]; [|naive_solver].
  destruct (String.eqb_spec h EmptyString); naive_solver.
Qed.

Lemma classify_skip st pre t post :
  id_ok t = true → live_hash t = None →
  classify st (pre ++ t :: post) = classify st (pre ++ post).
Proof.
  intros Hid Hh. rewrite !classify_app.
  destruct (classify st pre) as [[st1 new1] []]; [|done].
  simpl. unfold is_new. by rewrite Hid, Hh.
Qed.

(** The loop comes to a record without a usable hash: the tracker and the
    list of new records stay as they are. *)
Lemma classify_hashless st pre t :
  live_hash t = None → (classify st (pre ++ [t])).1 = (classify st pre).1.
Proof.
  intros Hh. rewrite classify_app.
  destruct (classify st pre) as [[st1 new1] []]; [|done].
  simpl. unfold is_new. rewrite Hh.
  destruct (id_ok t); simpl; by rewrite app_nil_r.
Qed.

(** X16.  A record whose hash is missing or empty is never among the
    new records and never among the delivered ones, whatever its logical
    time, and when the classification loop comes to it the watermark,
    the seen-set and the list of new records stay as they are.  When its
    ["transaction_id"] entry is absent or an object, the record is
    invisible to the shared body: the call ends with the same tracker,
    the same delivered records and the same status as on the page
    without the record. *)
Theorem hashless_record_ignored (st : tracker) (pre post : list tx) (t : tx) :
  tx_hash t = None ∨ tx_hash t = Some EmptyString →
  t ∉ (classify st (pre ++ t :: post)).1.2 ∧
  t ∉ (reconcile st (pre ++ t :: post)).1.2 ∧
  (classify st (pre ++ [t])).1 = (classify st pre).1 ∧
  (id_ok t = true →
   reconcile st (pre ++ t :: post) = reconcile st (pre ++ post)).
Proof.
  intros Hh%live_hash_None. split_and!.
  - destruct (classify st (pre ++ t :: post)) as [[st1 new] s1] eqn:Hc. simpl.
    apply classify_spec in Hc as (_ & _ & _ & Hall & _).
    intros Hin. rewrite Forall_forall in Hall.
    destruct (Hall _ Hin) as [[h Hh'] _]. congruence.
  - destruct (reconcile st (pre ++ t :: post)) as [[st' out] s] eqn:Hr. simpl.
    apply reconcile_fresh_step in Hr as (_ & _ & Hall & _).
    intros Hin. rewrite Forall_forall in Hall.
    destruct (Hall _ Hin) as [h Hh']. congruence.
  - by apply classify_hashless.
  - intros Hid. unfold reconcile. by rewrite classify_skip.
Qed.

Lemma hashless_record_ignored_witness :
  let st := {| last_lt := PStr "100"; processed_hashes := ∅ |} in
  let a := mk_tx (Some "a"%string) (Some (PStr "101")) (Some "a"%string) in
  let t := mk_tx (Some EmptyString) (Some (PStr "999")) (Some "t"%string) in
  reconcile st ([a] ++ t :: []) = reconcile st ([a] ++ []) ∧
  t ∉ (classify st ([a] ++ t :: [])).1.2 ∧
  t ∉ (reconcile st ([a] ++ t :: [])).1.2.
Proof.
  intros st a t.
  destruct (hashless_record_ignored st [a] [] t) as (Hc & Hr & _ & Heq);
    [by right|].
  split_and!; [by apply Heq|exact Hc|exact Hr].
Defined.


(** ** Fetch failures in the polling loop *)

(** The sleep after a turn whose fetch failed: a [RequestException] and
    an answer with ok false end inside [get_transactions_history], so
    the turn ends like any other; another exception reaches the [except]
    of the loop. *)
Lemma poll_cycle_failed st r :
  fetch_failed r = true →
  poll_cycle st r = (st, [Sleep (match r with OtherError => 10 | _ => 5 end)]).
Proof. by destruct r as [| |[] res]. Qed.

Lemma sleeps_app l1 l2 : sleeps (l1 ++ l2) = (sleeps l1 + sleeps l2)%nat.
Proof. unfold sleeps. by rewrite filter_app, length_app. Qed.

Lemma sleeps_Deliver out : sleeps (Deliver <$> out) = 0%nat.
Proof.
  unfold sleeps. induction out as [|t l IH]; [done|].
  by rewrite fmap_cons, filter_cons.
Qed.

Lemma poll_cycle_sleeps st r : sleeps (poll_cycle st r).2 = 1%nat.
Proof.
  unfold poll_cycle. destruct (get_transactions_history r) as [page|]; [|done].
  destruct (reconcile st page) as [[st' out] []]; simpl;
    by rewrite sleeps_app, sleeps_Deliver.
Qed.

Lemma poll_loop_app st rs1 rs2 :
  poll_loop st (rs1 ++ rs2) =
    let '(st1, log1) := poll_loop st rs1 in
    let '(st2, log2) := poll_loop st1 rs2 in
    (st2, log1 ++ log2).
Proof.
  revert st. induction rs1 as [|r rest IH]; intros st; simpl.
  { by destruct (poll_loop st rs2). }
  destruct (poll_cycle st r) as [st1 log1]. rewrite IH.
  destruct (poll_loop st1 rest) as [st2 log2].
  destruct (poll_loop st2 rs2) as [st3 log3]. by rewrite app_assoc.
Qed.

Lemma poll_loop_sleeps st rs : sleeps (poll_loop st rs).2 = length rs.
Proof.
  revert st. induction rs as [|r0 rest IH]; intros st; simpl; [done|].
  pose proof (poll_cycle_sleeps st r0) as H1.
  destruct (poll_cycle st r0) as [st1 log1]. specialize (IH st1).
  destruct (poll_loop st1 rest) as [st2 log2]. simpl in *.
  rewrite sleeps_app, H1, IH. done.
Qed.

(** C7.  In the polling loop a fetch that fails costs one turn and
    nothing else: the turn prints no transaction, leaves the tracker as it
    was and ends in a sleep.  Whatever happens inside the turns, the loop
    takes every scripted response in order, each turn ending in exactly
    one sleep, and the turns after a prefix start from the tracker that
    prefix left.  The final tracker and the delivered transactions are the
    ones of the run without the failed fetches: nothing is printed twice
    and nothing is lost because of them. *)
Theorem poll_fetch_failure_harmless (st : tracker) (rs rs' : list response) (r : response) :
  (fetch_failed r = true →
   poll_cycle st r = (st, [Sleep (match r with OtherError => 10 | _ => 5 end)])) ∧
  sleeps (poll_loop st rs).2 = length rs ∧
  poll_loop st (rs ++ rs') =
    (let '(st1, log1) := poll_loop st rs in
     let '(st2, log2) := poll_loop st1 rs' in (st2, log1 ++ log2)) ∧
  observable (poll_loop st (filter (λ r, fetch_failed r = false) rs))
    = observable (poll_loop st rs).
Proof.
  split_and!.
  - apply poll_cycle_failed.
  - apply poll_loop_sleeps.
  - apply poll_loop_app.
  - revert st. induction rs as [|r0 rest IH]; intros st; [done|].
    rewrite filter_cons. destruct (fetch_failed r0) eqn:Hf.
    + case_decide; [done|]. rewrite IH. simpl.
      rewrite (poll_cycle_failed st r0 Hf).
      by destruct (poll_loop st rest).
    + case_decide; [|done]. simpl.
      destruct (poll_cycle st r0) as [st1 log1]. specialize (IH st1).
      destruct (poll_loop st1 (filter _ rest)) as [st2 log2].
      destruct (poll_loop st1 rest) as [st3 log3].
      unfold observable in *. simpl in *. rewrite !delivered_app.
      injection IH as -> Hd. by rewrite Hd.
Qed.

Lemma poll_fetch_failure_harmless_witness :
  let st := {| last_lt := PStr "100"; processed_hashes := {["a"%string]} |} in
  poll_cycle st OtherError = (st, [Sleep 10]).
Proof.
  intros st.
  exact (proj1 (poll_fetch_failure_harmless st [] [] OtherError) eq_refl).
Defined.

(** ** The fallback from the websocket *)

Lemma websocket_loop_failures st k rest :
  (k < 3)%nat →
  websocket_loop st 0 (replicate 3 WsFailure ++ rest)
    = (st, [Sleep 5; Sleep 5], MaxRetries) ∧
  websocket_loop st 0 (replicate k WsFailure ++ WsTimeout :: rest)
    = (st, replicate k (Sleep 5), TimedOut).
Proof.
  intros Hk. split; [done|].
  destruct k as [|[|[|k]]]; [done..|lia].
Qed.

(** X18.  When the first three attempts on the websocket fail, or the
    timeout strikes after fewer than three failures and nothing else,
    [start_monitoring] goes over to the polling method and stays there:
    the run is the first check, at most two back-off sleeps, the fallback
    line and then [check_new_transactions], and whatever the websocket
    script holds after the failures is never looked at.  The program is
    not in event mode at the end of the script; when the baseline fetch
    and the baseline run to their end it is in the polling loop, which
    takes every scripted response, each turn ending in its sleep. *)
Theorem websocket_failure_falls_back (w : world) (rest : list ws_event) (k : nat) :
  w_ws w = replicate 3 WsFailure ++ rest ∨
  ((k < 3)%nat ∧ w_ws w = replicate k WsFailure ++ WsTimeout :: rest) →
  ∃ j,
    (j ≤ 2)%nat ∧
    start_monitoring w =
      (let '(st1, out1) := check_single_update new_tracker (w_init w) in
       let '(st3, log3, m) :=
         check_new_transactions st1 (w_baseline w) (w_polls w) in
       (st3, (Deliver <$> out1) ++ replicate j (Sleep 5) ++ Fallback :: log3, m)) ∧
    (start_monitoring w).2 ≠ EventMode ∧
    ∀ page0 st0, get_transactions_history (w_baseline w) = Some page0 →
      set_baseline (check_single_update new_tracker (w_init w)).1 page0
        = (st0, Completed) →
      (start_monitoring w).2 = PollMode ∧
      sleeps (poll_loop st0 (w_polls w)).2 = length (w_polls w).
Proof.
  intros Hws.
  assert (∃ j e, (j ≤ 2)%nat ∧ e ≠ Listening ∧
            ∀ st, websocket_monitor st (w_ws w) = (st, replicate j (Sleep 5), e))
    as (j & e & Hj & He & Hmon).
  { destruct Hws as [Hws|[Hk Hws]]; rewrite Hws.
    - exists 2%nat, MaxRetries. split_and!; [lia|done|]. intros st.
      apply (websocket_loop_failures st 0 rest). lia.
    - exists k, TimedOut. split_and!; [lia|done|]. intros st.
      by apply websocket_loop_failures. }
  assert (start_monitoring w =
      (let '(st1, out1) := check_single_update new_tracker (w_init w) in
       let '(st3, log3, m) :=
         check_new_transactions st1 (w_baseline w) (w_polls w) in
       (st3, (Deliver <$> out1) ++ replicate j (Sleep 5) ++ Fallback :: log3, m)))
    as Hrun.
  { unfold start_monitoring.
    destruct (check_single_update new_tracker (w_init w)) as [st1 out1].
    rewrite Hmon. by destruct e. }
  exists j. split_and!; [done|done| |].
  - rewrite Hrun. unfold check_new_transactions.
    destruct (check_single_update new_tracker (w_init w)) as [st1 out1].
    destruct (get_transactions_history (w_baseline w)) as [page0|]; [|done].
    destruct (set_baseline st1 page0) as [st0 []]; [|done].
    by destruct (poll_loop st0 (w_polls w)).
  - intros page0 st0 Hb Hs. split; [|apply poll_loop_sleeps].
    rewrite Hrun. unfold check_new_transactions. rewrite Hb.
    destruct (check_single_update new_tracker (w_init w)) as [st1 out1].
    simpl in Hs. rewrite Hs.
    by destruct (poll_loop st0 (w_polls w)).
Qed.

Lemma websocket_failure_falls_back_witness :
  let a := mk_tx (Some "a"%string) (Some (PStr "100")) (Some "a"%string) in
  let b := mk_tx (Some "b"%string) (Some (PStr "101")) (Some "b"%string) in
  let w := {| w_init := Body true (Some [a]);
              w_ws := [WsFailure; WsFailure; WsFailure; WsUpdate (Body true (Some [b]))];
              w_baseline := Body true (Some [a]);
              w_polls := [Body true (Some [b; a])] |} in
  delivered (start_monitoring w).1.2 = [a; b] ∧ (start_monitoring w).2 = PollMode.
Proof.
  intros a b w.
  destruct (websocket_failure_falls_back w [WsUpdate (Body true (Some [b]))] 0)
    as (j & Hj & Hrun & _ & Hpoll).
  - by left.
  - split; [|exact (proj1 (Hpoll [a] _ eq_refl eq_refl))].
    rewrite Hrun. destruct j as [|[|[|j]]]; [..|lia]; vm_compute; reflexivity.
Defined.

(** C8, where the code departs from the claim.  The websocket fails
    three times and the run falls back to the polling method.  The
    baseline fetch and the baseline (lines 95-101) are outside every
    [try]: when the fetch lets through an exception that is no
    [RequestException], or the page holds a record whose
    ["transaction_id"] is null, the run ends there, in no mode at all,
    and the transaction the history source holds is never delivered.
    With a baseline fetch whose failure is caught inside
    [get_transactions_history] the same run goes on polling and
    delivers it. *)
Example baseline_exception_stops_run :
  let b := mk_tx (Some "b"%string) (Some (PStr "101")) (Some "b"%string) in
  let n := mk_record IdOther None in
  let run baseline :=
    start_monitoring {| w_init := RequestError;
                        w_ws := [WsFailure; WsFailure; WsFailure];
                        w_baseline := baseline;
                        w_polls := [Body true (Some [b]); Body true (Some [b])] |} in
  run OtherError = (new_tracker, [Sleep 5; Sleep 5; Fallback], Stopped) ∧
  run (Body true (Some [n])) = (new_tracker, [Sleep 5; Sleep 5; Fallback], Stopped) ∧
  run RequestError
    = ({| last_lt := PStr "101"; processed_hashes := {["b"%string]} |},
       [Sleep 5; Sleep 5; Fallback; Deliver b; Sleep 5; Sleep 5], PollMode).
Proof. vm_compute. split_and!; reflexivity. Qed.

(** ** Pages of well-formed records *)

Lemma live_hash_Some t h :
  live_hash t = Some h ↔ tx_hash t = Some h ∧ h ≠ EmptyString.
Proof.
  split.
  - intros H. split; [by apply live_hash_tx_hash|by eapply live_hash_nonempty].
  - intros [H Hne]. unfold live_hash. rewrite H.
    destruct (String.eqb_spec h EmptyString); [done|done].
Qed.

Lemma is_new_new_at st t : is_new st t = Some true ↔ new_at st t.
Proof.
  rewrite is_new_true. unfold new_at. setoid_rewrite above_watermark_true.
  setoid_rewrite live_hash_Some. naive_solver.
Qed.

Lemma stale_not_new st t : stale st t → is_new st t = Some false.
Proof.
  unfold is_new. intros [[Hid Hn]|[(h & Hh & Hin)|(x & y & Hx & Hy & Hle)]].
  - by rewrite Hid, Hn.
  - rewrite (live_hash_id_ok _ _ Hh), Hh. by rewrite bool_decide_true.
  - rewrite (get_lt_id_ok _ _ Hx).
    destruct (live_hash t) as [h|]; [|done]. case_bool_decide; [done|].
    rewrite (above_watermark_value _ _ _ _ Hy Hx). f_equal. lia.
Qed.

Lemma classify_stale st page :
  Forall (stale st) page → classify st page = (st, [], Completed).
Proof.
  induction 1 as [|t rest Ht _ IH]; simpl; [done|].
  by rewrite (stale_not_new _ _ Ht).
Qed.

Lemma reconcile_stale st page :
  Forall (stale st) page → reconcile st page = (st, [], Completed).
Proof. intros H. unfold reconcile. by rewrite (classify_stale _ _ H). Qed.

Lemma wm_ok_mark_processed st t : wm_ok st → wm_ok (mark_processed st t).
Proof. unfold wm_ok, mark_processed. by destruct (tx_hash t). Qed.

Lemma is_new_is_Some st t :
  wm_ok st → is_Some (py_int (get_lt t)) → is_Some (is_new st t).
Proof.
  intros Hok [x Hx]. unfold is_new. rewrite (get_lt_id_ok _ _ Hx).
  destruct (live_hash t); [|done].
  case_bool_decide; [done|]. destruct Hok as [Hn|[y Hy]].
  - unfold above_watermark. by rewrite Hn.
  - by rewrite (above_watermark_value _ _ _ _ Hy Hx).
Qed.

Lemma classify_completes st page :
  wm_ok st → Forall (λ t, is_Some (py_int (get_lt t))) page →
  (classify st page).2 = Completed.
Proof.
  intros Hok Hall. revert st Hok.
  induction Hall as [|t rest Ht _ IH]; intros st Hok; simpl; [done|].
  destruct (is_new_is_Some st t Hok Ht) as [[] ->].
  - specialize (IH _ (wm_ok_mark_processed _ t Hok)).
    by destruct (classify (mark_processed st t) rest) as [[? ?] ?].
  - by apply IH.
Qed.

(** On a well-formed page the shared body runs to its end and delivers
    the new records in sorted order. *)
Lemma reconcile_completes st page :
  wm_ok st → Forall tx_ok page →
  ∃ st', reconcile st page = (st', sorted_by_lt (classify st page).1.2, Completed).
Proof.
  intros Hok Hall.
  assert (Forall (λ t, is_Some (py_int (get_lt t))) page) as Hlt.
  { eapply Forall_impl; [exact Hall|]. by intros t [? _]. }
  pose proof (classify_completes st page Hok Hlt) as Hs.
  pose proof (classify_last_lt st page) as Hw.
  unfold reconcile.
  destruct (classify st page) as [[st1 new] s1] eqn:Hc. simpl in *. subst s1.
  apply classify_spec in Hc as (_ & _ & _ & _ & Hsub).
  assert (Forall tx_ok new) as Hnew.
  { rewrite Forall_forall in Hall. apply Forall_forall. intros t Hin. apply Hall.
    by eapply elem_of_sublist. }
  assert (Forall (λ t, is_Some (lt_key t)) new) as Hkeys.
  { eapply Forall_impl; [exact Hnew|]. intros t [[x Hx] _].
    apply py_int_get_lt in Hx as [-> _]. done. }
  destruct new as [|t new]; [by eexists|].
  assert (sort_new (t :: new) = Some (sorted_by_lt (t :: new))) as ->.
  { by apply sort_new_Some. }
  apply deliver_completes.
  - unfold wm_ok. by rewrite Hw.
  - rewrite sorted_by_lt_perm. eapply Forall_impl; [exact Hnew|].
    intros u [[x Hx] Hf]. apply py_int_get_lt in Hx as [-> _]. done.
Qed.

Lemma live_NoDup l :
  Forall (λ t, is_Some (live_hash t)) l → NoDup (hashes l) → NoDup l.
Proof.
  intros Hl Hnd. apply (NoDup_fmap_1 tx_hash). rewrite (live_hashes_fields _ Hl).
  by apply (NoDup_fmap_2 Some).
Qed.

Lemma classify_new_NoDup st page : NoDup (classify st page).1.2.
Proof.
  destruct (classify st page) as [[st1 new] s1] eqn:Hc. simpl.
  apply classify_spec in Hc as (_ & Hnd & _ & Hall & _).
  apply live_NoDup; [|done]. eapply Forall_impl; [exact Hall|]. naive_solver.
Qed.

(** With hashes that identify the records, being new when the loop
    arrives is being new at the start. *)
Lemma classify_elem_page st page st' new :
  hash_identifies page →
  classify st page = (st', new, Completed) →
  ∀ t, t ∈ new ↔ t ∈ page ∧ is_new st t = Some true.
Proof.
  intros Hid Hc t. split.
  - intros Hin. pose proof Hc as Hc'.
    apply classify_spec in Hc' as (_ & _ & Hnot & Hall & Hsub).
    split; [by eapply elem_of_sublist|].
    rewrite Forall_forall in Hall. destruct (Hall _ Hin) as [[h Hh] Hw].
    apply is_new_true. exists h. split_and!; [done| |done].
    apply Hnot. apply list_elem_of_omap. eauto.
  - intros [Hin Hn].
    apply list_elem_of_split in Hin as (pre & post & ->).
    destruct (decide (t ∈ (classify st pre).1.2)) as [Hpre|Hpre].
    + rewrite classify_app in Hc.
      destruct (classify st pre) as [[st1 new1] []]; simpl in Hpre.
      * destruct (classify st1 (t :: post)) as [[st2 new2] s2].
        simplify_eq. set_solver.
      * by simplify_eq.
    + eapply classify_elem_complete; [exact Hc|].
      apply is_new_true in Hn as (h & Hh & Hfresh & Hw).
      apply is_new_true. exists h. split_and!; [done| |].
      * destruct (classify st pre) as [[st1 new1] s1] eqn:Hp. simpl in *.
        apply classify_spec in Hp as (-> & _ & _ & Hall1 & Hsub1).
        intros [Hin1|Hin1]%elem_of_union; [|done].
        apply elem_of_list_to_set, list_elem_of_omap in Hin1 as (u & Hu & Huh).
        assert (u = t) as ->.
        { apply (Hid u t h); [|set_solver|done|done].
          apply elem_of_app. left. by eapply elem_of_sublist. }
        done.
      * rewrite <- Hw. apply above_watermark_ext, classify_last_lt.
Qed.




(** ** The order of delivery *)




(** ** The watermark over calls *)

Lemma reconcile_wm_le st page : wm_le (last_lt st) (last_lt (reconcile st page).1.1).
Proof.
  destruct (reconcile st page) as [[st' out] s] eqn:Hr. simpl.
  pose proof (classify_last_lt st page) as Hw.
  apply reconcile_cases in Hr as (st1 & new & s1 & Hc & [[_ ->]|(_ & _ & _ & Hd)]);
    rewrite Hc in Hw; simpl in Hw; rewrite <- Hw.
  - apply wm_le_refl.
  - pose proof (deliver_wm_le st1 (sorted_by_lt new)) as H. by rewrite Hd in H.
Qed.

Lemma reconcile_nil_last_lt st page st' s :
  reconcile st page = (st', [], s) → last_lt st' = last_lt st.
Proof.
  intros Hr. pose proof (classify_last_lt st page) as Hw.
  apply reconcile_cases in Hr as (st1 & new & s1 & Hc & [[_ ->]|(_ & _ & _ & Hd)]);
    rewrite Hc in Hw; simpl in Hw; [done|].
  by apply deliver_nil in Hd as ->.
Qed.

(** After a call that delivered something, all of it with truthy logical
    times, the watermark is the largest delivered logical time. *)
Lemma reconcile_watermark_max st page st' out s :
  reconcile st page = (st', out, s) → out ≠ [] →
  Forall (λ t, truthy (get_lt t) = true) out →
  ∃ m, py_int (last_lt st') = Some m ∧
       Forall (λ t, lt_of t ≤ m) out ∧
       (∃ t, t ∈ out ∧ lt_of t = m) ∧
       (∀ w, py_int (last_lt st) = Some w → w ≤ m).
Proof.
  intros Hr Hne Htr. pose proof (classify_last_lt st page) as Hw.
  apply reconcile_cases in Hr as (st1 & new & s1 & Hc & [[-> _]|(-> & Hn & Hk & Hd)]);
    [done|].
  rewrite Hc in Hw. simpl in Hw.
  apply classify_spec in Hc as (_ & _ & _ & Hall & _).
  assert (∀ t, t ∈ out → above_watermark st1 t = Some true) as Habove.
  { intros t Hin. apply deliver_prefix in Hd as [k Hk'].
    assert (t ∈ new) as Hin'.
    { rewrite <- (sorted_by_lt_perm new), Hk'. set_solver. }
    rewrite Forall_forall in Hall. destruct (Hall _ Hin') as [_ <-].
    by apply above_watermark_ext. }
  assert (wm_ok st1) as Hok.
  { destruct out as [|t out']; [done|].
    specialize (Habove t (list_elem_of_here _ _)).
    apply above_watermark_true in Habove as [?|(x & y & _ & Hy & _)];
      [by left|right; eauto]. }
  assert (Forall (λ t, is_Some (lt_key t)) (sorted_by_lt new)) as Hks.
  { by rewrite sorted_by_lt_perm. }
  destruct (deliver_watermark _ _ _ _ _ Hok Hks Hd Htr Hne)
    as (m & Hm & Hle & Hprev & Hatt).
  rewrite Hw in Hprev, Hatt.
  exists m. split_and!; [done|done| |done].
  destruct Hatt as [Hatt|Hold]; [done|]. exfalso.
  destruct out as [|t out']; [done|].
  specialize (Habove t (list_elem_of_here _ _)).
  apply above_watermark_true in Habove as [Hn'|(x & y & Hx & Hy & Hxy)].
  - rewrite Hw in Hn'. by rewrite Hn' in Hold.
  - rewrite Hw in Hy. apply py_int_get_lt in Hx as [_ Hx].
    apply Forall_cons in Hle as [Hle _]. simplify_eq. lia.
Qed.

(** C4 (amended).  Over any sequence of calls of the shared body the
    watermark does not go down: it stays what it was, or was unset, or
    converts to a larger integer than before.  After a call that
    delivered a batch whose logical times are all truthy (not [0], not
    missing), the watermark is the largest logical time of the batch,
    which is at least the watermark before.  A call that delivers nothing
    leaves the watermark as it was, and on a page of records that are
    stale (no usable hash, hash already seen, or logical time at or below
    the watermark; the empty page too) the call delivers nothing and
    changes nothing.  The baseline is not covered: it overwrites the
    watermark. *)
Theorem watermark_after_reconcile (st : tracker) (page : list tx) (pages : list (list tx)) :
  wm_le (last_lt st) (last_lt (foldl (λ s p, (reconcile s p).1.1) st pages)) ∧
  ((reconcile st page).1.2 ≠ [] →
   Forall (λ t, truthy (get_lt t) = true) (reconcile st page).1.2 →
   ∃ m, py_int (last_lt (reconcile st page).1.1) = Some m ∧
        Forall (λ t, lt_of t ≤ m) (reconcile st page).1.2 ∧
        (∃ t, t ∈ (reconcile st page).1.2 ∧ lt_of t = m) ∧
        (∀ w, py_int (last_lt st) = Some w → w ≤ m)) ∧
  ((reconcile st page).1.2 = [] →
   last_lt (reconcile st page).1.1 = last_lt st) ∧
  (Forall (stale st) page → reconcile st page = (st, [], Completed)).
Proof.
  split_and!.
  - revert st. induction pages as [|p rest IH]; intros st; simpl; [apply wm_le_refl|].
    eapply wm_le_trans; [apply (reconcile_wm_le st p)|apply IH].
  - destruct (reconcile st page) as [[st' out] s] eqn:Hr. simpl.
    by eapply reconcile_watermark_max.
  - destruct (reconcile st page) as [[st' out] s] eqn:Hr. simpl. intros ->.
    by eapply reconcile_nil_last_lt.
  - apply reconcile_stale.
Qed.

Lemma watermark_after_reconcile_witness :
  let st := {| last_lt := PStr "100"; processed_hashes := {["a"%string]} |} in
  let a := mk_tx (Some "a"%string) (Some (PStr "100")) (Some "a"%string) in
  let b := mk_tx (Some "b"%string) (Some (PStr "120")) (Some "b"%string) in
  let c := mk_tx (Some "c"%string) (Some (PStr "110")) (Some "c"%string) in
  ∃ m, py_int (last_lt (reconcile st [b; a; c]).1.1) = Some m ∧
       Forall (λ t, lt_of t ≤ m) (reconcile st [b; a; c]).1.2 ∧
       (∃ t, t ∈ (reconcile st [b; a; c]).1.2 ∧ lt_of t = m) ∧
       (∀ w, py_int (last_lt st) = Some w → w ≤ m).
Proof.
  intros st a b c.
  apply (proj1 (proj2 (watermark_after_reconcile st [b; a; c] []))).
  - vm_compute. discriminate.
  - vm_compute. repeat constructor.
Defined.

(** C4, the claim as stated fails.  The baseline lowers a watermark that
    a call of the shared body had set, also in a run of the whole
    program; and a delivered record whose logical time is the integer
    [0] leaves the watermark unset. *)
Lemma watermark_can_go_down :
  let a := mk_tx (Some "a"%string) (Some (PStr "105")) (Some "a"%string) in
  let b := mk_tx (Some "b"%string) (Some (PStr "100")) (Some "b"%string) in
  let z := mk_tx (Some "z"%string) (Some (PInt 0)) (Some "z"%string) in
  let st := (reconcile new_tracker [a]).1.1 in
  let w := {| w_init := Body true (Some [a]); w_ws := [WsTimeout];
              w_baseline := Body true (Some [b]); w_polls := [] |} in
  (last_lt st = PStr "105" ∧ last_lt (seed st [b]) = PStr "100" ∧
   ¬ wm_le (last_lt st) (last_lt (seed st [b]))) ∧
  (delivered (start_monitoring w).1.2 = [a] ∧
   last_lt (start_monitoring w).1.1 = PStr "100") ∧
  ((reconcile new_tracker [z]).1.2 = [z] ∧
   last_lt (reconcile new_tracker [z]).1.1 = PNone).
Proof.
  intros a b z st w. split_and!; try reflexivity.
  intros [H|[H|(x & y & Hx & Hy & Hlt)]]; try discriminate.
  vm_compute in Hx, Hy. simplify_eq. lia.
Qed.

(** ** The baseline and the first check *)

Lemma seed_makes_stale st page :
  (set_baseline st page).2 = Completed → Forall (stale (seed st page)) page.
Proof.
  unfold seed. destruct (set_baseline st page) as [st0 s] eqn:Hb. simpl.
  intros ->. pose proof (set_baseline_ids _ _ _ Hb) as Hids.
  apply set_baseline_completed in Hb as [Hp _].
  apply Forall_forall. intros t Hin. unfold stale.
  rewrite Forall_forall in Hids.
  destruct (live_hash t) as [h|] eqn:Hh; [|left; split; [by apply Hids|done]].
  right. left. exists h. split; [done|]. rewrite Hp.
  apply elem_of_union. left. apply elem_of_list_to_set, list_elem_of_omap. eauto.
Qed.

(** X17.  The baseline at the start of the polling method, when it runs
    to its end, takes the logical time field of the first record of the
    page as the watermark, whatever the watermark was, and adds every
    hash of the page that is present and not empty to the seen-set; on
    an empty page it changes nothing.  It prints no transaction: with no
    polling turn after it the log of [check_new_transactions] is empty.
    A call of the shared body on the same page right after it delivers
    nothing and changes nothing. *)
Theorem baseline_is_silent (st : tracker) (page : list tx) :
  (set_baseline st page).2 = Completed →
  (∀ t0 rest, page = t0 :: rest → last_lt (seed st page) = get_lt t0) ∧
  (page = [] → seed st page = st) ∧
  processed_hashes (seed st page) = list_to_set (hashes page) ∪ processed_hashes st ∧
  check_new_transactions st (Body true (Some page)) [] = (seed st page, [], PollMode) ∧
  reconcile (seed st page) page = (seed st page, [], Completed).
Proof.
  intros Hs. pose proof (seed_makes_stale st page Hs) as Hstale.
  unfold check_new_transactions, seed in *. simpl.
  destruct (set_baseline st page) as [st0 s] eqn:Hb. simpl in *. subst s.
  destruct (set_baseline_completed _ _ _ Hb) as [Hp Hw].
  split_and!; [done| |done|done|by apply reconcile_stale].
  intros ->. by injection Hb as ->.
Qed.

Lemma baseline_is_silent_witness :
  let a := mk_tx (Some "a"%string) (Some (PStr "105")) (Some "a"%string) in
  let b := mk_tx (Some "b"%string) (Some (PStr "104")) (Some "b"%string) in
  last_lt (seed new_tracker [a; b]) = PStr "105" ∧
  reconcile (seed new_tracker [a; b]) [a; b] = (seed new_tracker [a; b], [], Completed).
Proof.
  intros a b.
  destruct (baseline_is_silent new_tracker [a; b] eq_refl) as (Hw & _ & _ & _ & Hr).
  split; [exact (Hw a [b] eq_refl)|exact Hr].
Defined.

(** C5, where the code departs from the claim.  The account has two
    transactions before the program starts.  The first check of
    [start_monitoring] is a call of the shared body on the fresh tracker
    and not a baseline: it prints both as new.  The baseline of the
    polling method does what the claim says, on the same history it
    prints nothing. *)
Example first_check_prints_history :
  let a := mk_tx (Some "a"%string) (Some (PStr "100")) (Some "a"%string) in
  let b := mk_tx (Some "b"%string) (Some (PStr "101")) (Some "b"%string) in
  check_single_update new_tracker (Body true (Some [b; a]))
    = ({| last_lt := PStr "101"; processed_hashes := {["a"%string; "b"%string]} |},
       [a; b]) ∧
  start_monitoring {| w_init := Body true (Some [b; a]); w_ws := [WsTimeout];
                      w_baseline := Body true (Some [b]);
                      w_polls := [Body true (Some [b; a])] |}
    = ({| last_lt := PStr "101"; processed_hashes := {["a"%string; "b"%string]} |},
       [Deliver a; Deliver b; Fallback; Sleep 5], PollMode) ∧
  check_new_transactions new_tracker (Body true (Some [b]))
                         [Body true (Some [b; a])]
    = ({| last_lt := PStr "101"; processed_hashes := {["b"%string]} |},
       [Sleep 5], PollMode).
Proof. vm_compute. split_and!; reflexivity. Qed.

(** ** A record without a logical time *)

(** C6, where the code departs from the claim.  The watermark is set and
    the page holds a new well-formed record followed by a record without
    a logical time: the conversion raises in the classification loop,
    after the first record was put into the seen-set.  The cycle delivers
    nothing, and no later cycle delivers the first record. *)
Example record_without_lt_aborts_cycle :
  let st := {| last_lt := PStr "100"; processed_hashes := ∅ |} in
  let b := mk_tx (Some "b"%string) (Some (PStr "101")) (Some "b"%string) in
  let c := mk_tx (Some "c"%string) None (Some "c"%string) in
  reconcile st [b; c]
    = ({| last_lt := PStr "100"; processed_hashes := {["b"%string]} |}, [], Raised) ∧
  delivered (poll_loop st [Body true (Some [b; c]); Body true (Some [b; c]);
                           Body true (Some [b])]).2 = [] ∧
  reconcile st [b] = ({| last_lt := PStr "101"; processed_hashes := {["b"%string]} |},
                      [b], Completed).
Proof. vm_compute. split_and!; reflexivity. Qed.

(** ** The size of the seen-set *)

Lemma fresh_step_size st st' out :
  fresh_step st st' out → (length out ≤ size (processed_hashes st'))%nat.
Proof.
  intros (_ & Hnd & Hl & Hf).
  assert (length out = length (hashes out)) as ->.
  { rewrite <- (length_fmap tx_hash), (live_hashes_fields _ Hl). by rewrite length_fmap. }
  rewrite <- (size_list_to_set (C:=gset string) (hashes out)) by done.
  apply subseteq_size. intros h Hh%elem_of_list_to_set. by apply Hf.
Qed.

(** C9 (amended).  The seen-set is a plain set that only grows: a call of
    the shared body, the baseline and the polling loop each leave a
    superset of the seen-set they found, the hash of every transaction
    delivered during a run of [start_monitoring] is in the seen-set at
    the end of the run, and so the seen-set has at least as many hashes
    as transactions were delivered. *)
Theorem seen_set_only_grows (w : world) (st : tracker) (page : list tx)
    (rs : list response) :
  processed_hashes st ⊆ processed_hashes (reconcile st page).1.1 ∧
  processed_hashes st ⊆ processed_hashes (seed st page) ∧
  processed_hashes st ⊆ processed_hashes (poll_loop st rs).1 ∧
  (∀ t, t ∈ delivered (start_monitoring w).1.2 →
        ∃ h, tx_hash t = Some h ∧ h ∈ processed_hashes (start_monitoring w).1.1) ∧
  (length (delivered (start_monitoring w).1.2)
     ≤ size (processed_hashes (start_monitoring w).1.1))%nat.
Proof.
  split_and!.
  - destruct (reconcile st page) as [[st' out] s] eqn:Hr.
    by apply reconcile_fresh_step in Hr as [? _].
  - by destruct (seed_fresh st page) as [? _].
  - destruct (poll_loop st rs) as [st' log] eqn:Hl.
    by apply poll_loop_fresh in Hl as [? _].
  - destruct (start_monitoring w) as [[st' log] m] eqn:Hrun. simpl.
    apply start_monitoring_fresh in Hrun as (_ & _ & Hl & Hf).
    intros t Hin. rewrite Forall_forall in Hl. destruct (Hl _ Hin) as [h Hh].
    exists h. split; [by apply live_hash_tx_hash|].
    apply Hf, list_elem_of_omap. eauto.
  - destruct (start_monitoring w) as [[st' log] m] eqn:Hrun. simpl.
    by eapply fresh_step_size, start_monitoring_fresh.
Qed.

Lemma seen_set_only_grows_witness :
  let a := mk_tx (Some "a"%string) (Some (PStr "100")) (Some "a"%string) in
  let w := {| w_init := Body true (Some [a]); w_ws := [WsTimeout];
              w_baseline := RequestError; w_polls := [] |} in
  ∃ h, tx_hash a = Some h ∧ h ∈ processed_hashes (start_monitoring w).1.1.
Proof.
  intros a w.
  apply (proj1 (proj2 (proj2 (proj2 (seen_set_only_grows w new_tracker [] []))))).
  vm_compute. left.
Defined.

Lemma poll_loop_two st r1 r2 s1 l1 s2 l2 :
  poll_cycle st r1 = (s1, l1) → poll_cycle s1 r2 = (s2, l2) →
  poll_loop st [r1; r2] = (s2, l1 ++ l2).
Proof. simpl. intros -> ->. by rewrite app_nil_r. Qed.

(** C9, the claim as stated fails: there is no window.  Whatever the
    width, two polling turns leave in the seen-set the hash of a
    delivered transaction whose logical time is further behind the
    watermark. *)
Lemma seen_set_has_no_window :
  ¬ ∃ width : Z,
      ∀ (rs : list response) (t : tx) (h : string) (m : Z),
        t ∈ delivered (poll_loop new_tracker rs).2 →
        live_hash t = Some h →
        h ∈ processed_hashes (poll_loop new_tracker rs).1 →
        py_int (last_lt (poll_loop new_tracker rs).1) = Some m →
        m - lt_of t ≤ width.
Proof.
  intros [width H].
  set (a := mk_tx (Some "a"%string) (Some (PInt 1)) (Some "a"%string)).
  set (b := mk_tx (Some "b"%string) (Some (PInt (Z.abs width + 2))) (Some "b"%string)).
  set (st1 := {| last_lt := PInt 1; processed_hashes := {["a"%string]} |}).
  assert (poll_cycle new_tracker (Body true (Some [a])) = (st1, [Deliver a; Sleep 5]))
    as E1 by (vm_compute; reflexivity).
  assert (wm_ok st1) as Hok by (right; by eexists).
  assert (Forall tx_ok [b]) as Hb by (repeat constructor; by eexists).
  assert (classify st1 [b] = (mark_processed st1 b, [b], Completed)) as Hc.
  { simpl. assert (is_new st1 b = Some true) as ->; [|done].
    apply is_new_true. exists "b"%string. split_and!; [done|set_solver|].
    apply above_watermark_true. right. exists (Z.abs width + 2), 1.
    split_and!; [done|done|lia]. }
  destruct (reconcile_completes st1 [b] Hok Hb) as [st2 Hr].
  rewrite Hc in Hr. change (sorted_by_lt _) with [b] in Hr.
  destruct (reconcile_watermark_max _ _ _ _ _ Hr) as (m & Hm & Hle & _ & _).
  { done. }
  { constructor; [|constructor]. simpl.
    destruct (Z.eqb_spec (Z.abs width + 2) 0); [lia|done]. }
  apply Forall_cons in Hle as [Hle _].
  change (lt_of b) with (Z.abs width + 2) in Hle.
  assert (poll_loop new_tracker [Body true (Some [a]); Body true (Some [b])]
          = (st2, [Deliver a; Sleep 5; Deliver b; Sleep 5])) as Hrun.
  { apply (poll_loop_two _ _ _ _ _ _ _ E1).
    unfold poll_cycle. simpl get_transactions_history. cbv iota beta.
    by rewrite Hr. }
  specialize (H [Body true (Some [a]); Body true (Some [b])] a "a"%string m).
  rewrite Hrun in H. simpl in H.
  assert (m - lt_of a ≤ width) as Hbad.
  { apply H; [left|done| |done].
    pose proof (reconcile_fresh_step _ _ _ _ _ Hr) as [Hsub _].
    apply Hsub. set_solver. }
  change (lt_of a) with 1 in Hbad. lia.
Qed.

(** * Further properties of the engine *)

(** ** The same page again *)

Lemma classify_processed_mono st page :
  processed_hashes st ⊆ processed_hashes (classify st page).1.1.
Proof.
  destruct (classify st page) as [[st1 new] s] eqn:Hc. simpl.
  apply classify_spec in Hc as (-> & _). set_solver.
Qed.

(** A record that is not new stays so when the seen-set grows and the
    watermark does not go down. *)
Lemma is_new_false_mono st st2 t :
  is_new st t = Some false →
  processed_hashes st ⊆ processed_hashes st2 →
  wm_le (last_lt st) (last_lt st2) →
  is_new st2 t = Some false.
Proof.
  unfold is_new. destruct (id_ok t); [|done].
  destruct (live_hash t) as [h|]; [|done].
  intros Hn Hsub Hle.
  destruct (decide (h ∈ processed_hashes st2)) as [Hin2|Hin2];
    [by rewrite bool_decide_true|rewrite bool_decide_false by done].
  rewrite bool_decide_false in Hn by set_solver.
  destruct Hle as [Hnone|[Heq|(w & w2 & Hw & Hw2 & Hlt)]].
  - unfold above_watermark in Hn. by rewrite Hnone in Hn.
  - rewrite <- Hn. apply above_watermark_ext. done.
  - apply above_watermark_Some in Hn as (x & y & Hx & Hy & Hb);
      [|intros E; by rewrite E in Hw].
    rewrite (above_watermark_value _ _ _ _ Hw2 Hx). f_equal.
    simplify_eq. symmetry in Hb. apply Z.ltb_ge in Hb. apply Z.ltb_ge. lia.
Qed.

Lemma is_new_seen st t h :
  live_hash t = Some h → h ∈ processed_hashes st → is_new st t = Some false.
Proof.
  intros Hh Hin. unfold is_new. rewrite (live_hash_id_ok _ _ Hh), Hh.
  by rewrite bool_decide_true.
Qed.

(** The classification loop on a page it has already worked through, from
    a tracker that has seen at least as much: nothing is new.  After a
    loop that raised the tracker must be the one the loop left. *)
Lemma classify_again st page st1 new s :
  classify st page = (st1, new, s) →
  ∀ st2, processed_hashes st1 ⊆ processed_hashes st2 →
         wm_le (last_lt st) (last_lt st2) →
         (s = Raised → st2 = st1) →
         (classify st2 page).1 = (st2, []).
Proof.
  revert st st1 new s. induction page as [|t rest IH]; intros st st1 new s; simpl.
  { done. }
  destruct (is_new st t) as [[]|] eqn:Hn.
  - destruct (classify (mark_processed st t) rest) as [[st1' new'] s'] eqn:Hc.
    intros [= <- <- <-] st2 Hsub Hle Hr.
    apply is_new_true in Hn as (h & Hh & _ & _).
    assert (is_new st2 t = Some false) as ->.
    { apply (is_new_seen _ _ h Hh). apply Hsub.
      pose proof (classify_processed_mono (mark_processed st t) rest) as Hm.
      rewrite Hc in Hm. simpl in Hm. apply Hm.
      rewrite (mark_processed_live _ _ _ Hh). simpl. set_solver. }
    eapply IH; [exact Hc|done| |done].
    unfold mark_processed. by destruct (tx_hash t).
  - intros Hc st2 Hsub Hle Hr.
    assert (is_new st2 t = Some false) as ->.
    { eapply is_new_false_mono; [exact Hn| |done].
      pose proof (classify_processed_mono st rest) as Hm.
      rewrite Hc in Hm. simpl in Hm. set_solver. }
    eapply IH; eauto.
  - intros [= <- <- <-] st2 _ _ Hr. rewrite (Hr eq_refl). simpl. by rewrite Hn.
Qed.

Lemma reconcile_status_classify st page st' out s st1 new :
  reconcile st page = (st', out, s) → classify st page = (st1, new, Raised) →
  st' = st1 ∧ out = [] ∧ s = Raised.
Proof.
  unfold reconcile. intros H Hc. rewrite Hc in H. destruct new; by simplify_eq.
Qed.

(** X1.  Fetching the same page again changes nothing: whatever the first
    call of the shared body did with a page, also when it raised, a
    second call on that page right after it delivers nothing and leaves
    the tracker as the first call left it. *)
Theorem reconcile_same_page_again (st : tracker) (page : list tx) :
  (reconcile (reconcile st page).1.1 page).1 = ((reconcile st page).1.1, []).
Proof.
  destruct (reconcile st page) as [[st' out] s] eqn:Hr. simpl.
  destruct (classify st page) as [[st1 new] s1] eqn:Hc.
  assert ((classify st' page).1 = (st', [])) as Hagain.
  { eapply classify_again; [exact Hc|..].
    - pose proof (reconcile_processed st page) as Hp.
      rewrite Hr, Hc in Hp. simpl in Hp. by rewrite Hp.
    - pose proof (reconcile_wm_le st page) as Hw. by rewrite Hr in Hw.
    - intros ->. by destruct (reconcile_status_classify _ _ _ _ _ _ _ Hr Hc). }
  unfold reconcile. destruct (classify st' page) as [[st2 new2] s2].
  simpl in Hagain. injection Hagain as -> ->. by destruct s2.
Qed.

(** ** What a call leaves untouched *)

Lemma deliver_last_lt st txs st' out s :
  deliver st txs = (st', out, s) →
  last_lt st' = last_lt st ∨
  ∃ t, t ∈ out ∧ truthy (get_lt t) = true ∧ last_lt st' = get_lt t.
Proof.
  revert st st' out s. induction txs as [|t rest IH]; intros st st' out s; simpl.
  { intros [= <- <- <-]. by left. }
  destruct (format_transaction t); [|intros [= <- <- <-]; by left].
  destruct (advance st t) as [st1|] eqn:Ha; [|intros [= <- <- <-]; by left].
  destruct (deliver st1 rest) as [[st2 out2] s2] eqn:Hd. intros [= <- <- <-].
  destruct (IH _ _ _ _ Hd) as [Heq|(u & Hu & Htr & Hlt)].
  - rewrite Heq. unfold advance in Ha. destruct (id_ok t); [|done].
    destruct (truthy (get_lt t)) eqn:Ht; [|left; by simplify_eq].
    destruct (above_watermark st t) as [[]|]; simpl in Ha; simplify_eq.
    + right. exists t. split_and!; [by left|done|done].
    + by left.
  - right. exists u. split_and!; [by right|done|done].
Qed.

(** X2.  A call of the shared body touches only what the page gives it:
    every delivered record is a record of the page, the seen-set gains
    only hashes of records of the page, and the watermark afterwards is
    the one before or the logical time field, a truthy one, of a record
    delivered by this call. *)
Theorem reconcile_frame (st : tracker) (page : list tx) :
  (∀ t, t ∈ (reconcile st page).1.2 → t ∈ page) ∧
  processed_hashes (reconcile st page).1.1
    ⊆ processed_hashes st ∪ list_to_set (hashes page) ∧
  (last_lt (reconcile st page).1.1 = last_lt st ∨
   ∃ t, t ∈ (reconcile st page).1.2 ∧ truthy (get_lt t) = true ∧
        last_lt (reconcile st page).1.1 = get_lt t).
Proof.
  destruct (reconcile st page) as [[st' out] s] eqn:Hr. simpl.
  destruct (classify st page) as [[st1 new] s1] eqn:Hc.
  pose proof (reconcile_processed st page) as Hp. rewrite Hr, Hc in Hp. simpl in Hp.
  pose proof (classify_last_lt st page) as Hw. rewrite Hc in Hw. simpl in Hw.
  destruct (reconcile_out_new _ _ _ _ _ _ _ _ Hr Hc) as [k Hk].
  pose proof Hc as Hspec. apply classify_spec in Hspec as (Hp1 & _ & _ & _ & Hsub).
  split_and!.
  - intros t Hin. eapply elem_of_sublist; [|exact Hsub]. rewrite <- Hk. set_solver.
  - rewrite Hp, Hp1. intros h [Hin|Hin]%elem_of_union; [|set_solver].
    apply elem_of_union. right. apply elem_of_list_to_set.
    apply elem_of_list_to_set, list_elem_of_omap in Hin as (t & Ht & Hh).
    apply list_elem_of_omap. exists t. split; [|done]. by eapply elem_of_sublist.
  - apply reconcile_cases in Hr as (st1' & new' & s1' & Hc' & Hcase).
    rewrite Hc in Hc'. simplify_eq.
    destruct Hcase as [[-> ->]|(_ & _ & _ & Hd)]; [by left|].
    rewrite <- Hw. by eapply deliver_last_lt.
Qed.

(** ** What is printed, whatever happens *)

(** X3.  Also when an exception cuts a cycle short, what the shared body
    has printed by then is in ascending order of logical time, holds no
    record twice, and is the beginning of the sorted list of the records
    classified as new. *)
Theorem reconcile_output_shape (st : tracker) (page : list tx) :
  StronglySorted lt_le (reconcile st page).1.2 ∧
  NoDup (reconcile st page).1.2 ∧
  (reconcile st page).1.2 `prefix_of` sorted_by_lt (classify st page).1.2.
Proof.
  destruct (reconcile st page) as [[st' out] s] eqn:Hr. simpl.
  assert (out `prefix_of` sorted_by_lt (classify st page).1.2) as Hpre.
  { apply reconcile_cases in Hr as (st1 & new & s1 & Hc & [[-> _]|(_ & _ & _ & Hd)]);
      rewrite Hc; simpl; [apply prefix_nil|by eapply deliver_prefix]. }
  split_and!; [| |done].
  - destruct Hpre as [k Hk].
    pose proof (sorted_by_lt_sorted (classify st page).1.2) as Hs.
    rewrite Hk in Hs. by apply StronglySorted_app_1_l in Hs.
  - apply reconcile_fresh_step in Hr as (_ & Hnd & Hl & _). by apply live_NoDup.
Qed.

(** ** The order of the page *)

Lemma sorted_by_lt_unique l l' :
  l ≡ₚ l' →
  (∀ t1 t2, t1 ∈ l → t2 ∈ l → lt_of t1 = lt_of t2 → t1 = t2) →
  sorted_by_lt l = sorted_by_lt l'.
Proof.
  intros Hp Hinj.
  apply (StronglySorted_unique_strong lt_le).
  - intros x1 x2 H1 H2 H12 H21. apply Hinj.
    + by rewrite sorted_by_lt_perm in H1.
    + rewrite sorted_by_lt_perm in H2. by rewrite Hp.
    + unfold lt_le in *. lia.
  - apply sorted_by_lt_sorted.
  - apply sorted_by_lt_sorted.
  - by rewrite !sorted_by_lt_perm.
Qed.

Lemma tracker_eq st1 st2 :
  last_lt st1 = last_lt st2 → processed_hashes st1 = processed_hashes st2 →
  st1 = st2.
Proof. destruct st1, st2. simpl. by intros -> ->. Qed.

Lemma hash_identifies_perm page page' :
  page ≡ₚ page' → hash_identifies page → hash_identifies page'.
Proof.
  intros Hp Hid t1 t2 h H1 H2. rewrite <- Hp in H1, H2. by apply Hid.
Qed.



(** ** Hashes that are in the seen-set *)

Lemma fresh_step_unseen st st' out t h :
  fresh_step st st' out → h ∈ processed_hashes st → t ∈ out →
  tx_hash t ≠ Some h.
Proof.
  intros (_ & _ & Hl & Hf) Hin Ht Hh.
  rewrite Forall_forall in Hl. destruct (Hl _ Ht) as [h' Hh'].
  pose proof (live_hash_tx_hash _ _ Hh') as Hh''. simplify_eq.
  destruct (Hf h) as [Hnot _]; [|done].
  apply list_elem_of_omap. eauto.
Qed.

(** X5.  A hash that is in the seen-set is never delivered again: not by
    a call of the shared body, not by any run of the polling loop, of the
    websocket loop or of the polling method with its baseline, whatever
    the history source answers. *)
Theorem seen_hash_is_never_delivered (st : tracker) (h : string) (t : tx)
    (page : list tx) (rs : list response) (evs : list ws_event) (b : response) :
  h ∈ processed_hashes st →
  tx_hash t = Some h →
  t ∉ (reconcile st page).1.2 ∧
  t ∉ delivered (poll_loop st rs).2 ∧
  t ∉ delivered (websocket_monitor st evs).1.2 ∧
  t ∉ delivered (check_new_transactions st b rs).1.2.
Proof.
  intros Hin Hh. split_and!; intros Ht.
  - destruct (reconcile st page) as [[st' out] s] eqn:Hr.
    by eapply (fresh_step_unseen _ _ _ t h (reconcile_fresh_step _ _ _ _ _ Hr)).
  - destruct (poll_loop st rs) as [st' log] eqn:Hr.
    by eapply (fresh_step_unseen _ _ _ t h (poll_loop_fresh _ _ _ _ Hr)).
  - unfold websocket_monitor in Ht.
    destruct (websocket_loop st 0 evs) as [[st' log] e] eqn:Hr.
    by eapply (fresh_step_unseen _ _ _ t h (websocket_loop_fresh _ _ _ _ _ _ Hr)).
  - destruct (check_new_transactions st b rs) as [[st' log] m] eqn:Hr.
    by eapply (fresh_step_unseen _ _ _ t h
                 (check_new_transactions_fresh _ _ _ _ _ _ Hr)).
Qed.

Lemma seen_hash_is_never_delivered_witness :
  let st := {| last_lt := PStr "100"; processed_hashes := {["a"%string]} |} in
  let a := mk_tx (Some "a"%string) (Some (PStr "200")) (Some "a"%string) in
  a ∉ delivered (poll_loop st [Body true (Some [a])]).2.
Proof.
  intros st a.
  apply (seen_hash_is_never_delivered st "a" a [] [Body true (Some [a])] [] RequestError).
  - vm_compute. set_solver.
  - reflexivity.
Defined.

(** X6.  What the baseline saw is never reported: when the baseline fetch
    of the polling method brings a page, no record with the hash of a
    record of that page is delivered by the polling loop that follows,
    however often the history source lists it again. *)
Theorem baseline_page_is_never_reported (st : tracker) (b : response)
    (page0 : list tx) (rs : list response) (t0 t : tx) (h : string) :
  get_transactions_history b = Some page0 →
  t0 ∈ page0 → tx_hash t0 = Some h → h ≠ EmptyString → tx_hash t = Some h →
  t ∉ delivered (check_new_transactions st b rs).1.2.
Proof.
  intros Hb Hin0 Hh0 Hne Hh. unfold check_new_transactions. rewrite Hb.
  destruct (set_baseline st page0) as [st0 []] eqn:Hs;
    [|simpl; apply not_elem_of_nil].
  apply set_baseline_completed in Hs as [Hp _].
  destruct (poll_loop st0 rs) as [st' log] eqn:Hl. simpl.
  intros Ht. eapply (fresh_step_unseen _ _ _ t h (poll_loop_fresh _ _ _ _ Hl)); [|done..].
  rewrite Hp. apply elem_of_union. left.
  apply elem_of_list_to_set, list_elem_of_omap. exists t0. split; [done|].
  by apply live_hash_Some.
Qed.

Lemma baseline_page_is_never_reported_witness :
  let a := mk_tx (Some "a"%string) (Some (PStr "100")) (Some "a"%string) in
  let a' := mk_tx (Some "a"%string) (Some (PStr "300")) (Some "again"%string) in
  a' ∉ delivered (check_new_transactions new_tracker (Body true (Some [a]))
                    [Body true (Some [a'; a])]).1.2.
Proof.
  intros a a'.
  by apply (baseline_page_is_never_reported new_tracker (Body true (Some [a])) [a]
              [Body true (Some [a'; a])] a a' "a");
    [reflexivity|left|reflexivity| |reflexivity].
Defined.

(** ** Records that are lost *)

Lemma deliver_completed_all st txs st' out :
  deliver st txs = (st', out, Completed) → out = txs.
Proof.
  revert st st' out. induction txs as [|t rest IH]; intros st st' out; simpl.
  { by intros [= <- <-]. }
  destruct (format_transaction t); [|done].
  destruct (advance st t) as [st1|]; [|done].
  destruct (deliver st1 rest) as [[st2 out2] s2] eqn:Hd. intros [= <- <- ->].
  f_equal. eauto.
Qed.

(** X7.  A cycle that ends without an exception delivers every record it
    classified as new.  A record that was classified as new and not
    delivered, because an exception ended the cycle, is lost: its hash is
    in the seen-set, and no later turn of the polling loop delivers a
    record with that hash. *)
Theorem undelivered_new_record_is_lost (st : tracker) (page : list tx) (t u : tx)
    (rs : list response) :
  ((reconcile st page).2 = Completed →
   (reconcile st page).1.2 ≡ₚ (classify st page).1.2) ∧
  (t ∈ (classify st page).1.2 → tx_hash u = tx_hash t →
   u ∉ delivered (poll_loop (reconcile st page).1.1 rs).2).
Proof.
  split.
  - unfold reconcile.
    destruct (classify st page) as [[st1 new] []] eqn:Hc; simpl;
      [|by destruct new].
    destruct new as [|t' new]; [done|].
    destruct (sort_new (t' :: new)) as [sorted|] eqn:Hs; [|done].
    apply sort_new_Some in Hs as [_ ->].
    destruct (deliver st1 _) as [[st' out] s] eqn:Hd. simpl. intros ->.
    apply deliver_completed_all in Hd as ->. apply sorted_by_lt_perm.
  - intros Hin Hu.
    pose proof (reconcile_processed st page) as Hp.
    destruct (classify st page) as [[st1 new] s1] eqn:Hc. simpl in *.
    apply classify_spec in Hc as (Hp1 & _ & _ & Hall & _).
    rewrite Forall_forall in Hall. destruct (Hall _ Hin) as [[h Hh] _].
    destruct (poll_loop (reconcile st page).1.1 rs) as [st2 log] eqn:Hl. simpl.
    intros Hdel.
    eapply (fresh_step_unseen _ _ _ u h (poll_loop_fresh _ _ _ _ Hl)); [|done|].
    + rewrite Hp, Hp1. apply elem_of_union. left.
      apply elem_of_list_to_set, list_elem_of_omap. eauto.
    + rewrite Hu. by apply live_hash_tx_hash.
Qed.

Lemma undelivered_new_record_is_lost_witness :
  let st := {| last_lt := PStr "100"; processed_hashes := ∅ |} in
  let b := mk_tx (Some "b"%string) (Some (PStr "101")) (Some "b"%string) in
  let c := mk_tx (Some "c"%string) (Some (PStr "102")) None in
  (reconcile st [c; b]).1.2 = [b] ∧
  b ∈ (classify st [c; b]).1.2 ∧ c ∈ (classify st [c; b]).1.2 ∧
  c ∉ delivered (poll_loop (reconcile st [c; b]).1.1
                   [Body true (Some [c; b]); Body true (Some [c])]).2.
Proof.
  intros st b c. split_and!.
  - reflexivity.
  - vm_compute. right. left.
  - vm_compute. left.
  - apply (proj2 (undelivered_new_record_is_lost st [c; b] c c
                    [Body true (Some [c; b]); Body true (Some [c])])).
    + vm_compute. left.
    + reflexivity.
Defined.

(** ** The websocket loop *)

Lemma failures_cons e evs :
  failures (e :: evs) = (if is_failure e then S (failures evs) else failures evs).
Proof. unfold failures. rewrite filter_cons. by destruct e. Qed.

Lemma websocket_loop_end st n evs :
  (n < max_retries)%nat →
  (websocket_loop st n evs).2 =
    if (max_retries <=? n + failures (before_timeout evs))%nat then MaxRetries
    else if existsb is_timeout evs then TimedOut
    else Listening.
Proof.
  assert (∀ m, (m < max_retries)%nat →
            (max_retries <=? m + failures [])%nat = false) as Hnil.
  { intros m Hm. apply Nat.leb_gt. unfold failures. simpl. lia. }
  revert st n. induction evs as [|e rest IH]; intros st n Hn.
  { cbn [websocket_loop before_timeout existsb snd]. by rewrite Hnil. }
  destruct e as [| | |r|]; cbn [websocket_loop before_timeout existsb is_timeout orb];
    rewrite ?failures_cons; cbn [is_failure].
  - destruct (Nat.ltb_spec (S n) max_retries) as [Hlt|Hge].
    + specialize (IH st (S n) Hlt).
      destruct (websocket_loop st (S n) rest) as [[st' log] e']. simpl in *.
      rewrite IH. by replace (n + S (failures (before_timeout rest)))%nat
        with (S (n + failures (before_timeout rest))) by lia.
    + assert ((max_retries <=? n + S (failures (before_timeout rest)))%nat = true)
        as -> by (apply Nat.leb_le; lia).
      done.
  - by apply IH.
  - by apply IH.
  - destruct (check_single_update st r) as [st1 out].
    specialize (IH st1 n Hn).
    by destruct (websocket_loop st1 n rest) as [[st2 log] e'].
  - cbn [snd]. by rewrite Hnil.
Qed.

(** X8.  How [websocket_monitor] ends depends only on the failures and
    the timeout: it gives up with the third failed attempt since it was
    started when that comes before a timeout, however many updates,
    other messages and orderly closes lie between the failures (the
    counter is never set back); it is cancelled when a timeout comes
    first; otherwise it is still listening when the script ends. *)
Theorem websocket_monitor_end (st : tracker) (evs : list ws_event) :
  (websocket_monitor st evs).2 =
    if (3 <=? failures (before_timeout evs))%nat then MaxRetries
    else if existsb is_timeout evs then TimedOut
    else Listening.
Proof.
  unfold websocket_monitor.
  by rewrite websocket_loop_end by (unfold max_retries; lia).
Qed.

Lemma check_single_update_failed st r :
  fetch_failed r = true → check_single_update st r = (st, []).
Proof. by destruct r as [| |[] res]. Qed.

Lemma websocket_loop_idle st n evs :
  (n < max_retries)%nat → Forall (λ e, is_idle e = true) evs →
  ∃ k, (k ≤ failures evs)%nat ∧ (n + k < max_retries)%nat ∧
       (websocket_loop st n evs).1 = (st, replicate k (Sleep 5)).
Proof.
  intros Hn Hall. revert n Hn.
  induction Hall as [|e rest He _ IH]; intros n Hn.
  { exists 0%nat. split_and!; [done|lia|done]. }
  rewrite failures_cons.
  destruct e as [| | |r|]; cbn [websocket_loop is_failure].
  - destruct (Nat.ltb_spec (S n) max_retries) as [Hlt|Hge].
    + destruct (IH (S n) Hlt) as (k & Hk & Hb & Hr).
      destruct (websocket_loop st (S n) rest) as [[st' log] e']. simpl in *.
      injection Hr as -> ->. exists (S k). split_and!; [lia|lia|done].
    + exists 0%nat. split_and!; [lia|lia|done].
  - by apply IH.
  - by apply IH.
  - rewrite (check_single_update_failed st r He).
    destruct (IH n Hn) as (k & Hk & Hb & Hr).
    destruct (websocket_loop st n rest) as [[st' log] e']. simpl in *.
    injection Hr as -> ->. by exists k.
  - exists 0%nat. split_and!; [lia|lia|done].
Qed.

(** X9.  The websocket phase acts on the tracker only through updates
    whose fetch brings a page: when the script holds nothing but
    failures, orderly closes, other messages, timeouts and updates whose
    fetch fails, the tracker is left as it was and the log holds nothing
    but back-off sleeps of five seconds, at most one per failure and at
    most two. *)
Theorem websocket_idle_is_silent (st : tracker) (evs : list ws_event) :
  Forall (λ e, is_idle e = true) evs →
  ∃ k, (k ≤ failures evs)%nat ∧ (k ≤ 2)%nat ∧
       (websocket_monitor st evs).1 = (st, replicate k (Sleep 5)).
Proof.
  intros Hall. unfold websocket_monitor.
  destruct (websocket_loop_idle st 0 evs) as (k & Hk & Hb & Hr);
    [unfold max_retries; lia|done|].
  exists k. unfold max_retries in Hb. split_and!; [done|lia|done].
Qed.

Lemma websocket_idle_is_silent_witness :
  let st := {| last_lt := PStr "100"; processed_hashes := {["a"%string]} |} in
  ∃ k, (k ≤ 2)%nat ∧
    (websocket_monitor st [WsNoise; WsFailure; WsUpdate RequestError; WsClosed;
                           WsFailure; WsUpdate (Body false None)]).1
      = (st, replicate k (Sleep 5)).
Proof.
  intros st.
  destruct (websocket_idle_is_silent st
              [WsNoise; WsFailure; WsUpdate RequestError; WsClosed;
               WsFailure; WsUpdate (Body false None)]) as (k & _ & Hk & Hr).
  - repeat constructor.
  - by exists k.
Defined.

(** ** The run as a whole *)

(** X10.  The baseline fetch is the one fetch outside every [try]: when
    it lets an exception through, the polling loop is never entered.
    Whatever responses are scripted for the polling loop, the run is the
    same, and it does not end in the polling loop: either the script
    ended inside the websocket phase, or the exception reached [main]
    and nothing was delivered after the fallback line. *)
Theorem baseline_exception_is_fatal (w : world) (polls : list response) :
  get_transactions_history (w_baseline w) = None →
  start_monitoring w
    = start_monitoring {| w_init := w_init w; w_ws := w_ws w;
                          w_baseline := w_baseline w; w_polls := polls |} ∧
  (start_monitoring w).2 ≠ PollMode ∧
  ((start_monitoring w).2 = Stopped →
   ∃ log, (start_monitoring w).1.2 = log ++ [Fallback] ∧
          (websocket_monitor (check_single_update new_tracker (w_init w)).1
                             (w_ws w)).1.1 = (start_monitoring w).1.1).
Proof.
  intros Hb. unfold start_monitoring, check_new_transactions. simpl. rewrite Hb.
  destruct (check_single_update new_tracker (w_init w)) as [st1 out1]. simpl.
  destruct (websocket_monitor st1 (w_ws w)) as [[st2 log2] []]; simpl;
    split_and!; try done.
  - intros _. exists ((Deliver <$> out1) ++ log2). by rewrite <- app_assoc.
  - intros _. exists ((Deliver <$> out1) ++ log2). by rewrite <- app_assoc.
Qed.

Lemma baseline_exception_is_fatal_witness :
  let b := mk_tx (Some "b"%string) (Some (PStr "101")) (Some "b"%string) in
  let w := {| w_init := RequestError; w_ws := [WsTimeout];
              w_baseline := OtherError; w_polls := [Body true (Some [b])] |} in
  (start_monitoring w).2 ≠ PollMode.
Proof.
  intros b w.
  exact (proj1 (proj2 (baseline_exception_is_fatal w [] eq_refl))).
Defined.

(** ** An unset watermark *)

(** With the watermark unset the classification converts nothing: when
    every ["transaction_id"] can be read it runs to its end, and every
    hash of the page is in the seen-set after it. *)
Lemma classify_unset st page :
  last_lt st = PNone → Forall (λ t, id_ok t = true) page →
  (classify st page).2 = Completed ∧
  ∀ h, h ∈ hashes page → h ∈ processed_hashes (classify st page).1.1.
Proof.
  intros Hw Hids. revert st Hw.
  induction Hids as [|t rest Hid _ IH]; intros st Hw; simpl.
  { split; [done|]. intros h Hh. by apply elem_of_nil in Hh. }
  unfold is_new, above_watermark. rewrite Hid, Hw. unfold hashes. simpl.
  destruct (live_hash t) as [h0|] eqn:Hh0; simpl.
  - case_bool_decide as Hin.
    + destruct (IH st Hw) as [Hs Hall]. split; [done|].
      intros h [->|Hh]%elem_of_cons; [|by apply Hall].
      by apply classify_processed_mono.
    + assert (last_lt (mark_processed st t) = PNone) as Hw'.
      { unfold mark_processed. by destruct (tx_hash t). }
      destruct (IH _ Hw') as [Hs Hall].
      pose proof (classify_processed_mono (mark_processed st t) rest) as Hm.
      destruct (classify (mark_processed st t) rest) as [[st1 new] s1]. simpl in *.
      split; [done|]. intros h [->|Hh]%elem_of_cons; [|by apply Hall].
      apply Hm. rewrite (mark_processed_live _ _ _ Hh0). simpl. set_solver.
  - by apply IH.
Qed.

(** The shared body on a tracker with no watermark and a page of
    well-formed records: it delivers the sorted new records, and every
    hash of the page that was not seen before is among them. *)
Lemma reconcile_unset st page :
  last_lt st = PNone → Forall tx_ok page →
  ∃ st', reconcile st page = (st', sorted_by_lt (classify st page).1.2, Completed) ∧
    ∀ h, h ∈ hashes page → h ∉ processed_hashes st →
         h ∈ hashes (sorted_by_lt (classify st page).1.2).
Proof.
  intros Hw Hall.
  destruct (reconcile_completes st page) as [st' Hr]; [by left|done|].
  exists st'. split; [done|]. intros h Hh Hnot.
  assert (Forall (λ t, id_ok t = true) page) as Hids.
  { eapply Forall_impl; [exact Hall|]. intros t [[x Hx] _]. by eapply get_lt_id_ok. }
  destruct (classify_unset st page Hw Hids) as [_ Hseen]. specialize (Hseen h Hh).
  destruct (classify st page) as [[st1 new] s1] eqn:Hc. simpl in *.
  apply classify_spec in Hc as (Hp & _). rewrite Hp in Hseen.
  apply elem_of_union in Hseen as [Hin|Hin]; [|done].
  apply elem_of_list_to_set in Hin. unfold hashes in *.
  by rewrite sorted_by_lt_perm.
Qed.





(** ** The order of delivery over a run *)

Lemma reconcile_delivered_above st page st' out s w :
  reconcile st page = (st', out, s) → py_int (last_lt st) = Some w →
  Forall (λ t, w < lt_of t) out.
Proof.
  intros Hr Hw. destruct (classify st page) as [[st1 new] s1] eqn:Hc.
  destruct (reconcile_out_new _ _ _ _ _ _ _ _ Hr Hc) as [k Hk].
  apply classify_spec in Hc as (_ & _ & _ & Hall & _).
  rewrite <- Hk in Hall. apply Forall_app in Hall as [Hall _].
  eapply Forall_impl; [exact Hall|]. intros t [_ Ha]. simpl in Ha.
  apply above_watermark_true in Ha as [Hn|(x & y & Hx & Hy & Hxy)].
  - by rewrite Hn in Hw.
  - apply py_int_get_lt in Hx as [_ ->]. simplify_eq. done.
Qed.

Lemma wm_le_value a b w :
  wm_le a b → py_int a = Some w → ∃ w', py_int b = Some w' ∧ w ≤ w'.
Proof.
  intros [->|[->|(x & y & Hx & Hy & Hxy)]] Hw; [done|by exists w|].
  exists y. split; [done|]. simplify_eq. lia.
Qed.

Lemma poll_cycle_reconcile st r :
  ∃ page, (poll_cycle st r).1 = (reconcile st page).1.1 ∧
          delivered (poll_cycle st r).2 = (reconcile st page).1.2.
Proof.
  unfold poll_cycle. destruct (get_transactions_history r) as [page|].
  - exists page. destruct (reconcile st page) as [[st' out] []]; simpl;
      by rewrite delivered_app, delivered_Deliver, app_nil_r.
  - by exists [].
Qed.

Lemma poll_loop_ascending st rs :
  Forall (λ t, truthy (get_lt t) = true) (delivered (poll_loop st rs).2) →
  StronglySorted lt_le (delivered (poll_loop st rs).2) ∧
  ∀ w, py_int (last_lt st) = Some w →
       Forall (λ t, w < lt_of t) (delivered (poll_loop st rs).2).
Proof.
  revert st. induction rs as [|r rest IH]; intros st; simpl.
  { intros _. split; [constructor|]. intros w _. constructor. }
  destruct (poll_cycle_reconcile st r) as (page & Hst & Hout).
  destruct (poll_cycle st r) as [st1 log1]. simpl in Hst, Hout.
  specialize (IH st1).
  destruct (poll_loop st1 rest) as [st2 log2]. simpl in *.
  rewrite delivered_app, Hout. intros [Htr1 Htr2]%Forall_app.
  destruct (IH Htr2) as [Hs2 Hab2].
  destruct (reconcile st page) as [[st' out] s] eqn:Hr. simpl in *. subst st1.
  pose proof (reconcile_wm_le st page) as Hle. rewrite Hr in Hle. simpl in Hle.
  assert (StronglySorted lt_le out) as Hs1.
  { destruct (reconcile_cases _ _ _ _ _ Hr)
      as (s0 & new & s1 & Hc & [[-> _]|(_ & _ & _ & Hd)]); [constructor|].
    apply deliver_prefix in Hd as [k Hk].
    pose proof (sorted_by_lt_sorted new) as Hs. rewrite Hk in Hs.
    by apply StronglySorted_app_1_l in Hs. }
  split.
  - apply StronglySorted_app; split_and!; [|done|done].
    intros t1 t2 Hin1 Hin2.
    destruct (reconcile_watermark_max _ _ _ _ _ Hr) as (m & Hm & Hlem & _);
      [intros ->; by apply elem_of_nil in Hin1|done|].
    specialize (Hab2 m Hm). rewrite Forall_forall in Hlem, Hab2.
    specialize (Hlem _ Hin1). specialize (Hab2 _ Hin2). unfold lt_le. lia.
  - intros w Hw. apply Forall_app. split.
    + by eapply reconcile_delivered_above.
    + destruct (wm_le_value _ _ _ Hle Hw) as (w' & Hw' & Hww).
      eapply Forall_impl; [exact (Hab2 w' Hw')|]. simpl. intros; lia.
Qed.

(** X15.  Over a whole run of the polling loop the transactions leave in
    ascending order of logical time, across the turns and not only
    inside one, and all of them lie above the watermark the loop started
    with, provided the logical times of the delivered records are truthy
    (not [0], not missing); exceptions and failed fetches in between do
    not disturb the order.  The same holds for the polling method with
    its baseline. *)
Theorem polling_delivers_in_ascending_order (st : tracker) (b : response)
    (rs : list response) :
  (Forall (λ t, truthy (get_lt t) = true) (delivered (poll_loop st rs).2) →
   StronglySorted lt_le (delivered (poll_loop st rs).2) ∧
   ∀ w, py_int (last_lt st) = Some w →
        Forall (λ t, w < lt_of t) (delivered (poll_loop st rs).2)) ∧
  (Forall (λ t, truthy (get_lt t) = true)
          (delivered (check_new_transactions st b rs).1.2) →
   StronglySorted lt_le (delivered (check_new_transactions st b rs).1.2)).
Proof.
  split; [apply poll_loop_ascending|].
  unfold check_new_transactions.
  destruct (get_transactions_history b) as [page0|]; [|intros _; constructor].
  destruct (set_baseline st page0) as [st0 []]; [|intros _; constructor].
  pose proof (poll_loop_ascending st0 rs) as H.
  destruct (poll_loop st0 rs) as [st' log]. simpl in *.
  intros Htr. by apply H.
Qed.

Lemma polling_delivers_in_ascending_order_witness :
  let t (h l : string) := mk_tx (Some h) (Some (PStr l)) (Some h) in
  let st := {| last_lt := PStr "100"; processed_hashes := ∅ |} in
  let rs := [Body true (Some [t "c" "103"; t "b" "102"]%string); OtherError;
             Body true (Some [t "e" "105"; t "c" "103"; t "d" "104"]%string)] in
  delivered (poll_loop st rs).2
    = [t "b" "102"; t "c" "103"; t "d" "104"; t "e" "105"]%string ∧
  StronglySorted lt_le (delivered (poll_loop st rs).2).
Proof.
  intros t st rs. split; [reflexivity|].
  apply (proj1 (polling_delivers_in_ascending_order st RequestError rs)).
  vm_compute. repeat constructor.
Defined.

(** * The formatter *)

Section DisplayProperties.

Variable local_time : pyval → option string.
Variable ton6 : Z → string.

Notation format := (Display.format_transaction local_time ton6).
Notation view := (Display.engine_view local_time ton6).

Lemma outgoing_is_Some items :
  is_Some (Display.outgoing ton6 items) ↔ Display.amounts_ok items.
Proof.
  unfold Display.amounts_ok. induction items as [|[m|] rest IH]; simpl.
  { split; [constructor|by eexists]. }
  - rewrite Forall_cons. destruct (truthy (Display.value_of m)) eqn:Ht.
    + destruct (Display.nanotons (Display.value_of m)) as [n|] eqn:Hn; simpl.
      * destruct (Display.outgoing ton6 rest) as [lines|]; simpl.
        -- split; [|by eexists]. intros _. split.
           ++ exists m. split; [done|]. intros _. by eexists.
           ++ apply IH. by eexists.
        -- split; [by intros [? ?]|]. intros [_ H]. apply IH in H. by destruct H.
      * split; [by intros [? ?]|]. intros [(m' & [= <-] & H) _].
        destruct (H Ht) as [? Hs]. by rewrite Hn in Hs.
    + rewrite IH. split; [|by intros [_ H]].
      intros H. split; [|done]. exists m. split; [done|]. by rewrite Ht.
  - split; [by intros [? ?]|]. by intros [(m' & Hm & _) _]%Forall_cons.
Qed.

Lemma incoming_is_Some r :
  is_Some (Display.incoming r) ↔ Display.in_msg_ok r.
Proof.
  unfold Display.incoming, Display.in_msg_ok.
  destruct (Display.raw_in_msg r) as [|m|[]].
  - split; [|by eexists]. by intros _.
  - destruct (truthy (Display.value_of m)) eqn:Ht.
    + destruct (Display.nanotons (Display.value_of m)) as [n|] eqn:Hn; simpl.
      * split; [|by eexists]. intros _. split; [done|].
        intros m' [= <-] _. rewrite Hn. by eexists.
      * split; [by intros [? ?]|]. intros [_ H].
        destruct (H m eq_refl Ht) as [? Hs]. by rewrite Hn in Hs.
    + split; [|by eexists]. intros _. split; [done|].
      intros m' [= <-] Ht'. by rewrite Ht in Ht'.
  - split; [by intros [? ?]|]. by intros [H _].
  - split; [|by eexists]. by intros _.
Qed.

(** When [format_transaction] returns: the timestamp has a local time,
    the ["transaction_id"] can be read, the messages have their shape and
    the amounts that are shown and the fees convert. *)
Lemma format_is_Some (r : Display.raw_tx) :
  is_Some (format r) ↔
    is_Some (local_time (default (PInt 0) (Display.raw_utime r))) ∧
    is_Some (Display.id_of r) ∧
    Display.in_msg_ok r ∧
    (∃ items, Display.out_items r = Some items ∧ Display.amounts_ok items) ∧
    is_Some (Display.nanotons (default (PInt 0) (Display.raw_total_fees r))).
Proof.
  rewrite <- incoming_is_Some. setoid_rewrite <- outgoing_is_Some.
  unfold Display.format_transaction.
  destruct (local_time _) as [ts|]; simpl;
    [|split; [by intros [? ?]|by intros [[? ?] _]]].
  destruct (Display.id_of r) as [f|]; simpl;
    [|split; [by intros [? ?]|by intros (_ & [? ?] & _)]].
  destruct (Display.incoming r) as [inc|]; simpl;
    [|split; [by intros [? ?]|by intros (_ & _ & [? ?] & _)]].
  destruct (Display.out_items r) as [items|]; simpl;
    [|split; [by intros [? ?]|by intros (_ & _ & _ & (? & ? & _) & _)]].
  destruct (Display.outgoing ton6 items) as [out|] eqn:Ho; simpl;
    [|split; [by intros [? ?]|
              intros (_ & _ & _ & (? & [= <-] & [? Hs]) & _); by rewrite Ho in Hs]].
  destruct (Display.nanotons _) as [fees|]; simpl;
    [|split; [by intros [? ?]|by intros (_ & _ & _ & _ & [? ?])]].
  split; [|by eexists]. intros _. split_and!; by eexists.
Qed.

Lemma raw_lt_is_Some r x :
  py_int (default PNone (Display.raw_lt r)) = Some x → is_Some (Display.id_of r).
Proof. unfold Display.raw_lt. by destruct (Display.id_of r). Qed.

(** The engine reads from the view what the formatter's record holds. *)
Lemma view_fields r :
  get_lt (view r) = default PNone (Display.raw_lt r) ∧
  (is_Some (Display.id_of r) → format_transaction (view r) = format r).
Proof.
  unfold get_lt, tx_lt, format_transaction, id_ok, Display.engine_view,
    Display.raw_lt.
  simpl. destruct (Display.id_of r); simpl; [done|].
  split; [done|]. by intros [? ?].
Qed.


End DisplayProperties.


(** ** The scenarios of the specification, run on the model *)

(** A page in the order 105, 103, 104 leaves in the order 103, 104, 105,
    and the same page fetched again brings nothing. *)
Example scenario_order :
  let t (h l : string) := mk_tx (Some h) (Some (PStr l)) (Some h) in
  let page := [t "c" "105"; t "a" "103"; t "b" "104"]%string in
  (reconcile new_tracker page).1.2 = [t "a" "103"; t "b" "104"; t "c" "105"]%string ∧
  last_lt (reconcile new_tracker page).1.1 = PStr "105" ∧
  (reconcile (reconcile new_tracker page).1.1 page).1.2 = [].
Proof. vm_compute. split_and!; reflexivity. Qed.

(** The baseline on one record, then a page with that record and a newer
    one: the newer one is delivered, the watermark moves to it, and the
    same page again brings nothing. *)
Example scenario_baseline_then_page :
  let a := mk_tx (Some "a"%string) (Some (PStr "100")) (Some "a"%string) in
  let b := mk_tx (Some "b"%string) (Some (PStr "101")) (Some "b"%string) in
  let st := seed new_tracker [a] in
  (reconcile st [a; b]).1.2 = [b] ∧
  last_lt (reconcile st [a; b]).1.1 = PStr "101" ∧
  (reconcile (reconcile st [a; b]).1.1 [a; b]).1.2 = [].
Proof. vm_compute. split_and!; reflexivity. Qed.

(** The same record twice in one page is delivered once. *)
Example scenario_duplicate_in_page :
  let a := mk_tx (Some "a"%string) (Some (PStr "101")) (Some "a"%string) in
  (reconcile new_tracker [a; a]).1.2 = [a].
Proof. reflexivity. Qed.
